(** * A shared-stack coroutine scheduler (coroutine.c)

    Shallow embedding of [src/coroutine/coroutine.c] and the properties
    its specification states about it.

    Modelling conventions.
    - [int] and [ptrdiff_t] values are integers of [Z], and the
      arithmetic of the model is exact.  In the code every [int] but one
      stays in range on every table it can hold: the exception is
      [S->cap * 2] on a full table of 2^30 slots, which is above
      [INT_MAX].  What is stated of the doubling of the table carries
      [cap * 2 <= INT_MAX] and says that the new capacity is an [int].
    - [S->stack], the array of [STACK_SIZE] bytes, is a map from byte
      offsets to bytes; an address inside it is its offset from
      [S->stack].  [malloc] leaves it unspecified, so [coroutine_open]
      takes its first contents as an argument.
    - [C->stack], a heap block of [C->cap] bytes, is the list of its
      bytes; the null pointer is the empty list.
    - [S->co], a heap array of [S->cap] pointers, is a list of optional
      coroutines; each coroutine is owned by its slot alone, so the
      pointer is the value and [NULL] is [None].  The back pointer
      [C->sch] is left out.
    - [ucontext_t] is opaque to the code; a context records which
      program point it would continue at.
    - A call ends in one of four ways, see [outcome].  A call that ends
      in [swapcontext] is followed up to that point: what runs next is
      another step of the execution, see [call].
    - The stack of the model is what the two [memcpy] and the stores of
      the running coroutine make of it.  The frames that a call made
      on the shared stack pushes there, as the start frame that
      [makecontext] prepares or the return address of the call of
      [swapcontext], are not part of it, and nothing is stated about
      them.
    - [coroutine_close] ends the scheduler's life; it is the list of
      the calls of [free] it makes. *)

From Stdlib Require Import ZArith Lia Strings.Byte.
From stdpp Require Import base tactics option list numbers.

Local Open Scope Z_scope.

(** ** Constants *)

Definition STACK_SIZE : Z := 1024 * 1024.
Definition DEFAULT_COROUTINE : Z := 16.

(** The largest [int], of 32 bits. *)
Definition INT_MAX : Z := 2 ^ 31 - 1.

(** Modelled from the spec: [coroutine.h] is not among the sources; it
    declares the four lifecycle states Dead, Ready, Running and Suspended
    that [coroutine.c] stores in [C->status] and returns from
    [coroutine_status].  They are four distinct [int] constants. *)
Definition COROUTINE_DEAD : Z := 0.
Definition COROUTINE_READY : Z := 1.
Definition COROUTINE_RUNNING : Z := 2.
Definition COROUTINE_SUSPEND : Z := 3.

(** ** Data *)

(** What an execution context continues with when it is activated. *)
Inductive context : Type :=
  | ctx_blank        (* never filled in *)
  | ctx_mainfunc     (* made by [makecontext]: starts [mainfunc] on
                        [S->stack], with [S->main] as its successor *)
  | ctx_in_yield     (* saved by the [swapcontext] of [coroutine_yield] *)
  | ctx_in_resume.   (* saved by the [swapcontext] of [coroutine_resume] *)

Module coroutine.
Record t : Type := mk {
  func : Z;             (* address of the entry function *)
  ud : Z;               (* the user pointer *)
  ctx : context;
  cap : Z;
  size : Z;
  status : Z;
  stack : list byte
}.
End coroutine.

Module schedule.
Record t : Type := mk {
  stack : Z -> byte;
  main : context;
  nco : Z;
  cap : Z;
  running : Z;
  co : list (option coroutine.t)
}.
End schedule.

(** Which context a [swapcontext] activated. *)
Inductive target : Type :=
  | to_coroutine (c : context)   (* the [C->ctx] of the resumed coroutine *)
  | to_main.                     (* [S->main] *)

(** How a call ends.  [Aborted] carries the scheduler as it is when the
    assertion fails.  [Undefined] stands for what C gives no meaning to: a
    null or out-of-bounds access. *)
Inductive outcome (A : Type) : Type :=
  | Returned (a : A) (S : schedule.t)
  | Switched (to : target) (S : schedule.t)
  | Aborted (S : schedule.t)
  | Undefined.
Arguments Returned {A} a S.
Arguments Switched {A} to S.
Arguments Aborted {A} S.
Arguments Undefined {A}.

(** ** Memory *)

(** [S->co[id]]: [None] when [id] is outside the array. *)
Definition slot (S : schedule.t) (id : Z) : option (option coroutine.t) :=
  if id <? 0 then None else schedule.co S !! Z.to_nat id.

(** The [n] bytes of [stk] from offset [src] on. *)
Definition stack_bytes (stk : Z -> byte) (src : Z) (n : Z) : list byte :=
  (fun k => stk (src + Z.of_nat k)) <$> seq 0 (Z.to_nat n).

(** [memcpy(S->stack + dst, buf, n)]. *)
Definition stack_write (stk : Z -> byte) (dst : Z) (buf : list byte) (n : Z)
  : Z -> byte :=
  fun k =>
    if (dst <=? k) && (k <? dst + n)
    then nth (Z.to_nat (k - dst)) buf x00
    else stk k.

(** [memcpy(buf, bytes, length bytes)]: the head of [buf] is overwritten,
    the rest of the block stays. *)
Definition block_write (buf : list byte) (bytes : list byte) : list byte :=
  bytes ++ drop (length bytes) buf.

(** ** Field updates *)

Definition with_co (S : schedule.t) (id : Z) (c : option coroutine.t)
  : schedule.t :=
  schedule.mk (schedule.stack S) (schedule.main S) (schedule.nco S)
    (schedule.cap S) (schedule.running S)
    (<[Z.to_nat id := c]> (schedule.co S)).

Definition with_running (S : schedule.t) (id : Z) : schedule.t :=
  schedule.mk (schedule.stack S) (schedule.main S) (schedule.nco S)
    (schedule.cap S) id (schedule.co S).

Definition with_nco (S : schedule.t) (n : Z) : schedule.t :=
  schedule.mk (schedule.stack S) (schedule.main S) n
    (schedule.cap S) (schedule.running S) (schedule.co S).

Definition with_stack (S : schedule.t) (stk : Z -> byte) : schedule.t :=
  schedule.mk stk (schedule.main S) (schedule.nco S)
    (schedule.cap S) (schedule.running S) (schedule.co S).

Definition with_main (S : schedule.t) (c : context) : schedule.t :=
  schedule.mk (schedule.stack S) c (schedule.nco S)
    (schedule.cap S) (schedule.running S) (schedule.co S).

(** ** The functions of coroutine.c *)

Definition _co_new (func ud : Z) : coroutine.t :=
  coroutine.mk func ud ctx_blank 0 0 COROUTINE_READY [].

Definition coroutine_open (garbage : Z -> byte) : schedule.t :=
  schedule.mk garbage ctx_blank 0 DEFAULT_COROUTINE (-1)
    (replicate (Z.to_nat DEFAULT_COROUTINE) None).

(** The [else] branch of [coroutine_new]: the loop over [i], with
    [left] iterations to go.  Falling out of the loop reaches
    [assert(0)]. *)
Fixpoint coroutine_new_scan (left : nat) (i : Z) (c : coroutine.t)
    (S : schedule.t) : outcome Z :=
  match left with
  | O => Aborted S
  | Datatypes.S left' =>
      let id := Z.rem (i + schedule.nco S) (schedule.cap S) in
      match slot S id with
      | None => Undefined
      | Some None =>
          Returned id (with_nco (with_co S id (Some c)) (schedule.nco S + 1))
      | Some (Some _) => coroutine_new_scan left' (i + 1) c S
      end
  end.

Definition coroutine_new (func ud : Z) (S : schedule.t) : outcome Z :=
  let c := _co_new func ud in
  if schedule.cap S <=? schedule.nco S then
    let id := schedule.cap S in
    let grown :=
      schedule.co S ++ replicate (Z.to_nat (schedule.cap S)) None in
    Returned id
      (schedule.mk (schedule.stack S) (schedule.main S)
         (schedule.nco S + 1) (schedule.cap S * 2) (schedule.running S)
         (<[Z.to_nat (schedule.cap S) := Some c]> grown))
  else
    coroutine_new_scan (Z.to_nat (schedule.cap S)) 0 c S.

(** [C->field = ...] for the coroutine [C] that lives in slot [id]. *)
Definition modify_co (S : schedule.t) (id : Z)
    (f : coroutine.t -> coroutine.t) : schedule.t :=
  schedule.mk (schedule.stack S) (schedule.main S) (schedule.nco S)
    (schedule.cap S) (schedule.running S)
    (alter (fmap f) (Z.to_nat id) (schedule.co S)).

Definition set_status (v : Z) (C : coroutine.t) : coroutine.t :=
  coroutine.mk (coroutine.func C) (coroutine.ud C) (coroutine.ctx C)
    (coroutine.cap C) (coroutine.size C) v (coroutine.stack C).

Definition set_ctx (c : context) (C : coroutine.t) : coroutine.t :=
  coroutine.mk (coroutine.func C) (coroutine.ud C) c
    (coroutine.cap C) (coroutine.size C) (coroutine.status C)
    (coroutine.stack C).

Definition set_size (n : Z) (C : coroutine.t) : coroutine.t :=
  coroutine.mk (coroutine.func C) (coroutine.ud C) (coroutine.ctx C)
    (coroutine.cap C) n (coroutine.status C) (coroutine.stack C).

Definition set_stack (b : list byte) (C : coroutine.t) : coroutine.t :=
  coroutine.mk (coroutine.func C) (coroutine.ud C) (coroutine.ctx C)
    (coroutine.cap C) (coroutine.size C) (coroutine.status C) b.

(** [free(C->stack); C->cap = n; C->stack = malloc(C->cap)].  The new
    block is unspecified; zeroes stand for it. *)
Definition regrow (n : Z) (C : coroutine.t) : coroutine.t :=
  coroutine.mk (coroutine.func C) (coroutine.ud C) (coroutine.ctx C)
    n (coroutine.size C) (coroutine.status C)
    (replicate (Z.to_nat n) x00).

(** [mainfunc] up to the call [C->func(S, C->ud)]: the entry function and
    its argument. *)
Definition mainfunc_call (S : schedule.t) : outcome (Z * Z) :=
  match slot S (schedule.running S) with
  | Some (Some C) => Returned (coroutine.func C, coroutine.ud C) S
  | _ => Undefined
  end.

(** [mainfunc] from the return of [C->func] on; [id] is its local, read
    from [S->running] when the coroutine started, and [C] the coroutine
    it found in slot [id] then.  Freeing [C] leaves the slot without a
    coroutine; a slot that has lost it before has no defined
    behaviour. *)
Definition mainfunc_return (id : Z) (S : schedule.t) : outcome unit :=
  match slot S id with
  | Some (Some _) =>
      Returned tt
        (with_running
           (with_nco (with_co S id None) (schedule.nco S - 1)) (-1))
  | _ => Undefined
  end.

Definition coroutine_resume (id : Z) (S : schedule.t) : outcome unit :=
  if negb (schedule.running S =? -1) then Aborted S else
  if negb ((0 <=? id) && (id <? schedule.cap S)) then Aborted S else
  match slot S id with
  | None => Undefined
  | Some None => Returned tt S
  | Some (Some C) =>
      let status := coroutine.status C in
      if status =? COROUTINE_READY then
        let S1 := modify_co S id (set_ctx ctx_mainfunc) in
        let S2 := modify_co S1 id (set_status COROUTINE_RUNNING) in
        let S3 := with_running S2 id in
        Switched (to_coroutine ctx_mainfunc) (with_main S3 ctx_in_resume)
      else if status =? COROUTINE_SUSPEND then
        let n := coroutine.size C in
        if (0 <=? n) && (n <=? STACK_SIZE)
           && (n <=? Z.of_nat (length (coroutine.stack C)))
        then
          let S1 :=
            with_stack S
              (stack_write (schedule.stack S) (STACK_SIZE - n)
                 (coroutine.stack C) n) in
          let S2 := with_running S1 id in
          let S3 := modify_co S2 id (set_status COROUTINE_RUNNING) in
          Switched (to_coroutine (coroutine.ctx C))
            (with_main S3 ctx_in_resume)
        else Undefined
      else Aborted S
  end.

(** [_save_stack(C, top)] for the coroutine [C] of slot [id]; [dummy] is
    the address of its local [dummy]. *)
Definition _save_stack (id : Z) (top dummy : Z) (S : schedule.t)
  : outcome unit :=
  if negb (top - dummy <=? STACK_SIZE) then Aborted S else
  match slot S id with
  | Some (Some C) =>
      let C1 :=
        if coroutine.cap C <? top - dummy
        then regrow (top - dummy) C else C in
      let C2 := set_size (top - dummy) C1 in
      let n := coroutine.size C2 in
      if (0 <=? n) && (n <=? Z.of_nat (length (coroutine.stack C2))) then
        Returned tt
          (with_co S id
             (Some (set_stack
                      (block_write (coroutine.stack C2)
                         (stack_bytes (schedule.stack S) dummy n)) C2)))
      else Undefined
  | _ => Undefined
  end.

(** [coroutine_yield(S)]; [addrC] and [dummy] are the addresses of the
    local [C] of [coroutine_yield] and of the local [dummy] of
    [_save_stack]. *)
Definition coroutine_yield (addrC dummy : Z) (S : schedule.t)
  : outcome unit :=
  let id := schedule.running S in
  if negb (0 <=? id) then Aborted S else
  match slot S id with
  | None => Undefined
  | Some _ =>
      if negb (0 <? addrC) then Aborted S else
      match _save_stack id STACK_SIZE dummy S with
      | Returned _ S1 =>
          let S2 := modify_co S1 id (set_status COROUTINE_SUSPEND) in
          let S3 := with_running S2 (-1) in
          Switched to_main (modify_co S3 id (set_ctx ctx_in_yield))
      | Switched t S1 => Switched t S1
      | Aborted S1 => Aborted S1
      | Undefined => Undefined
      end
  end.

Definition coroutine_status (id : Z) (S : schedule.t) : outcome Z :=
  if negb ((0 <=? id) && (id <? schedule.cap S)) then Aborted S else
  match slot S id with
  | None => Undefined
  | Some None => Returned COROUTINE_DEAD S
  | Some (Some C) => Returned (coroutine.status C) S
  end.

Definition coroutine_running (S : schedule.t) : outcome Z :=
  Returned (schedule.running S) S.

(** ** Executions *)

(** What the program does to a scheduler: the calls of the interface,
    the return of the running coroutine's entry function into [mainfunc],
    and a store of the running coroutine into the stack it runs on. *)
Inductive call : Type :=
  | call_new (func ud : Z)
  | call_resume (id : Z)
  | call_yield (addrC dummy : Z)
  | call_status (id : Z)
  | call_running
  | entry_returns
  | store (off : Z) (b : byte).

(** The scheduler a call leaves behind, when it returns or switches. *)
Definition after {A : Type} (o : outcome A) : option schedule.t :=
  match o with
  | Returned _ S1 | Switched _ S1 => Some S1
  | Aborted _ | Undefined => None
  end.

Definition exec (e : call) (S : schedule.t) : option schedule.t :=
  match e with
  | call_new func ud => after (coroutine_new func ud S)
  | call_resume id => after (coroutine_resume id S)
  | call_yield addrC dummy => after (coroutine_yield addrC dummy S)
  | call_status id => after (coroutine_status id S)
  | call_running => after (coroutine_running S)
  | entry_returns => after (mainfunc_return (schedule.running S) S)
  | store off b =>
      if (0 <=? schedule.running S) && (0 <=? off) && (off <? STACK_SIZE)
      then Some (with_stack S
                   (fun k => if k =? off then b else schedule.stack S k))
      else None
  end.

Fixpoint execs (es : list call) (S : schedule.t) : option schedule.t :=
  match es with
  | [] => Some S
  | e :: es' =>
      match exec e S with
      | Some S' => execs es' S'
      | None => None
      end
  end.

Definition reachable (S : schedule.t) : Prop :=
  exists garbage es, execs es (coroutine_open garbage) = Some S.

(** A sequence of register calls, one for each entry function and user
    pointer of [fs], and the ids they return. *)
Fixpoint register_all (fs : list (Z * Z)) (S : schedule.t)
  : outcome (list Z) :=
  match fs with
  | [] => Returned [] S
  | (func, ud) :: fs' =>
      match coroutine_new func ud S with
      | Returned id S1 =>
          match register_all fs' S1 with
          | Returned ids S2 => Returned (id :: ids) S2
          | o => o
          end
      | Switched t S1 => Switched t S1
      | Aborted S1 => Aborted S1
      | Undefined => Undefined
      end
  end.

(** ** Invariants *)

(** The number of coroutines in a table. *)
Definition live (co : list (option coroutine.t)) : nat :=
  length (filter is_Some co).

(** The table is as large as [cap] says and [nco] counts its coroutines. *)
Definition table_ok (S : schedule.t) : Prop :=
  Z.of_nat (length (schedule.co S)) = schedule.cap S /\
  0 < schedule.cap S /\
  schedule.nco S = Z.of_nat (live (schedule.co S)).

(** [S->running] is [-1] or the slot of a coroutine that is Running. *)
Definition running_ok (S : schedule.t) : Prop :=
  schedule.running S = -1 \/
  (0 <= schedule.running S < schedule.cap S /\
   exists C, slot S (schedule.running S) = Some (Some C) /\
             coroutine.status C = COROUTINE_RUNNING).

(** The private block is as large as [C->cap] says and holds the saved
    bytes. *)
Definition block_ok (C : coroutine.t) : Prop :=
  Z.of_nat (length (coroutine.stack C)) = coroutine.cap C /\
  0 <= coroutine.size C <= coroutine.cap C /\
  coroutine.size C <= STACK_SIZE.

Definition blocks_ok (S : schedule.t) : Prop :=
  forall id C, slot S id = Some (Some C) -> block_ok C.

Definition sched_ok (S : schedule.t) : Prop :=
  table_ok S /\ running_ok S /\ blocks_ok S.

(** ** The scheduler after each call *)

(** After [coroutine_resume] of a Ready coroutine, at its [swapcontext]. *)
Definition resumed_ready (id : Z) (S : schedule.t) : schedule.t :=
  with_main
    (with_running
       (modify_co (modify_co S id (set_ctx ctx_mainfunc)) id
          (set_status COROUTINE_RUNNING)) id)
    ctx_in_resume.

(** After [coroutine_resume] of the Suspended coroutine [C], at its
    [swapcontext]. *)
Definition resumed_suspended (id : Z) (C : coroutine.t) (S : schedule.t)
  : schedule.t :=
  with_main
    (modify_co
       (with_running
          (with_stack S
             (stack_write (schedule.stack S)
                (STACK_SIZE - coroutine.size C) (coroutine.stack C)
                (coroutine.size C))) id)
       id (set_status COROUTINE_RUNNING))
    ctx_in_resume.

(** The coroutine that [_save_stack] leaves in the slot. *)
Definition saved (stk : Z -> byte) (dummy : Z) (C : coroutine.t)
  : coroutine.t :=
  let n := STACK_SIZE - dummy in
  let C1 := if coroutine.cap C <? n then regrow n C else C in
  set_stack
    (block_write (coroutine.stack C1) (stack_bytes stk dummy n))
    (set_size n C1).

(** After [coroutine_yield] of the running coroutine [C], at its
    [swapcontext]. *)
Definition yielded (id dummy : Z) (C : coroutine.t) (S : schedule.t)
  : schedule.t :=
  modify_co
    (with_running
       (modify_co
          (with_co S id (Some (saved (schedule.stack S) dummy C)))
          id (set_status COROUTINE_SUSPEND))
       (-1))
    id (set_ctx ctx_in_yield).

(** After [coroutine_new] found the empty slot [id]. *)
Definition registered (id : Z) (c : coroutine.t) (S : schedule.t)
  : schedule.t :=
  with_nco (with_co S id (Some c)) (schedule.nco S + 1).

(** After [coroutine_new] on a full table. *)
Definition grown (c : coroutine.t) (S : schedule.t) : schedule.t :=
  schedule.mk (schedule.stack S) (schedule.main S)
    (schedule.nco S + 1) (schedule.cap S * 2) (schedule.running S)
    (<[Z.to_nat (schedule.cap S) := Some c]>
       (schedule.co S ++ replicate (Z.to_nat (schedule.cap S)) None)).

(** After [mainfunc] took the coroutine of slot [id] away. *)
Definition finished (id : Z) (S : schedule.t) : schedule.t :=
  with_running (with_nco (with_co S id None) (schedule.nco S - 1)) (-1).

(** After a store of [b] at [S->stack[off]]. *)
Definition stored (off : Z) (b : byte) (S : schedule.t) : schedule.t :=
  with_stack S (fun k => if k =? off then b else schedule.stack S k).

(** ** Steps *)

(** The steps of an execution, each with the scheduler it leaves. *)
Inductive step (S : schedule.t) : call -> schedule.t -> Prop :=
  | step_grow func ud :
      schedule.cap S <= schedule.nco S ->
      step S (call_new func ud) (grown (_co_new func ud) S)
  | step_register func ud id :
      schedule.nco S < schedule.cap S ->
      slot S id = Some None ->
      step S (call_new func ud) (registered id (_co_new func ud) S)
  | step_resume_empty id :
      schedule.running S = -1 -> 0 <= id < schedule.cap S ->
      slot S id = Some None ->
      step S (call_resume id) S
  | step_resume_ready id C :
      schedule.running S = -1 -> 0 <= id < schedule.cap S ->
      slot S id = Some (Some C) ->
      coroutine.status C = COROUTINE_READY ->
      step S (call_resume id) (resumed_ready id S)
  | step_resume_suspended id C :
      schedule.running S = -1 -> 0 <= id < schedule.cap S ->
      slot S id = Some (Some C) ->
      coroutine.status C = COROUTINE_SUSPEND ->
      0 <= coroutine.size C <= STACK_SIZE ->
      coroutine.size C <= Z.of_nat (length (coroutine.stack C)) ->
      step S (call_resume id) (resumed_suspended id C S)
  | step_yield addrC dummy C :
      0 <= schedule.running S -> 0 < addrC -> 0 <= dummy <= STACK_SIZE ->
      slot S (schedule.running S) = Some (Some C) ->
      step S (call_yield addrC dummy)
        (yielded (schedule.running S) dummy C S)
  | step_status id : step S (call_status id) S
  | step_running : step S call_running S
  | step_return C :
      slot S (schedule.running S) = Some (Some C) ->
      step S entry_returns (finished (schedule.running S) S)
  | step_store off b :
      0 <= schedule.running S -> 0 <= off < STACK_SIZE ->
      step S (store off b) (stored off b S).

(** Whether an execution goes through. *)
Definition runs (es : list call) (S : schedule.t) : bool :=
  match execs es S with Some _ => true | None => false end.

(** One for a slot that holds a coroutine, zero for an empty one. *)
Definition occupied (c : option coroutine.t) : Z :=
  match c with Some _ => 1 | None => 0 end.

(** ** Concrete executions *)

(** A stack of zero bytes. *)
Definition zeros : Z -> byte := fun _ => x00.

(** Two coroutines are registered; the first is started, stores three
    bytes at the top of the stack and yields with six live bytes. *)
Definition demo_calls : list call :=
  [ call_new 100 7; call_new 200 8; call_resume 0;
    store 1048575 "a"; store 1048574 "b"; store 1048570 "c";
    call_yield 1048572 1048570 ].

(** The scheduler [demo_calls] leaves: both coroutines in the table, the
    first Suspended with its six bytes saved, nothing running. *)
Definition demo : schedule.t :=
  default (coroutine_open zeros) (execs demo_calls (coroutine_open zeros)).

(** The first coroutine of [demo], as it is saved. *)
Definition demo_co : coroutine.t :=
  coroutine.mk 100 7 ctx_in_yield 6 6 COROUTINE_SUSPEND
    ["c"; x00; x00; x00; "b"; "a"]%byte.

(** A scheduler whose slot 0 holds a coroutine marked Running while
    nothing runs: [demo] with that one field changed. *)
Definition demo_stale : schedule.t :=
  modify_co demo 0 (set_status COROUTINE_RUNNING).

(** A full table: sixteen registrations on a scheduler just opened. *)
Definition demo_full : schedule.t :=
  default (coroutine_open zeros)
    (execs (replicate 16 (call_new 100 7)) (coroutine_open zeros)).

(** [demo] resumed again: its first coroutine runs on the stack. *)
Definition demo_running : schedule.t :=
  default (coroutine_open zeros)
    (execs (demo_calls ++ [call_resume 0]) (coroutine_open zeros)).

(** [demo] just before its yield. *)
Definition demo_before : schedule.t :=
  default (coroutine_open zeros)
    (execs (take 6 demo_calls) (coroutine_open zeros)).

(** What happens while the first coroutine of [demo] is suspended: the
    second one is started, overwrites the top of the stack, registers a
    third and finishes. *)
Definition demo_between : list call :=
  [ call_resume 1; store 1048575 "z"; store 1048571 "y";
    call_new 300 9; entry_returns ].

(** The scheduler after [demo_between]: the top of the stack is no
    longer what the first coroutine left there. *)
Definition demo_away : schedule.t := default demo (execs demo_between demo).

(** A full table with a coroutine running: sixteen registrations on a
    scheduler just opened, then the resume of the sixth. *)
Definition demo_full_running : schedule.t :=
  default (coroutine_open zeros)
    (execs (replicate 16 (call_new 100 7) ++ [call_resume 5])
       (coroutine_open zeros)).

(** ** The specification's sentence on rejected resumes *)

(** C4 as the specification states it: with no coroutine running, resume
    of an id in [0, cap) whose slot is empty, or whose coroutine is
    neither Ready nor Suspended, aborts. *)
Definition resume_fatal_as_stated : Prop :=
  forall S id,
    schedule.running S = -1 -> 0 <= id < schedule.cap S ->
    (slot S id = Some None \/
     exists C, slot S id = Some (Some C) /\
       coroutine.status C <> COROUTINE_READY /\
       coroutine.status C <> COROUTINE_SUSPEND) ->
    exists S', coroutine_resume id S = Aborted S'.

(** Closes a goal [a <= x < b] or [a <= x <= b] on closed terms. *)
Ltac between :=
  split; [apply Z.leb_le|first [apply Z.ltb_lt|apply Z.leb_le]];
  vm_compute; reflexivity.

(** ** The scheduler's address through [makecontext] *)

(** The casts to [uint32_t] and to [uintptr_t]; the latter is taken to
    be 64 bits wide, as the shift by 32 in [mainfunc] needs. *)
Definition uint32_t (z : Z) : Z := z mod 2 ^ 32.

Definition uintptr_t (z : Z) : Z := z mod 2 ^ 64.

(** The two arguments that [coroutine_resume] gives [makecontext] for
    [mainfunc]: [(uint32_t)ptr] and [(uint32_t)(ptr>>32)]. *)
Definition resume_low32 (ptr : Z) : Z := uint32_t ptr.

Definition resume_hi32 (ptr : Z) : Z := uint32_t (Z.shiftr ptr 32).

(** [mainfunc]: [(uintptr_t)low32 | ((uintptr_t)hi32 << 32)]. *)
Definition mainfunc_ptr (low32 hi32 : Z) : Z :=
  Z.lor (uintptr_t low32) (uintptr_t (Z.shiftl (uintptr_t hi32) 32)).

(** ** Teardown *)

(** What [free] is called on: the private block and the object of the
    coroutine of a slot, the table, the scheduler. *)
Inductive release : Type :=
  | free_stack (id : Z) (block : list byte)
  | free_coroutine (id : Z)
  | free_table
  | free_schedule.

(** [_co_delete(co)] for the coroutine of slot [id]: [free(co->stack)],
    which does nothing on a null pointer, then [free(co)]. *)
Definition _co_delete (id : Z) (C : coroutine.t) : list release :=
  [free_stack id (coroutine.stack C); free_coroutine id].

(** The loop of [coroutine_close] from [i] on, with [left] iterations to
    go; [None] when it reads outside the table. *)
Fixpoint coroutine_close_loop (left : nat) (i : Z) (S : schedule.t)
  : option (list release) :=
  match left with
  | O => Some []
  | Datatypes.S left' =>
      match slot S i with
      | None => None
      | Some None => coroutine_close_loop left' (i + 1) S
      | Some (Some C) =>
          match coroutine_close_loop left' (i + 1) S with
          | Some rs => Some (_co_delete i C ++ rs)
          | None => None
          end
      end
  end.

(** [coroutine_close(S)]: the calls of [free] it makes, in order. *)
Definition coroutine_close (S : schedule.t) : option (list release) :=
  match coroutine_close_loop (Z.to_nat (schedule.cap S)) 0 S with
  | Some rs => Some (rs ++ [free_table; free_schedule])
  | None => None
  end.

(** The calls of [free] that [mainfunc] makes when the entry function
    of the coroutine of slot [id] has returned: its [_co_delete(C)]. *)
Definition mainfunc_frees (id : Z) (S : schedule.t) : list release :=
  match slot S id with
  | Some (Some C) => _co_delete id C
  | _ => []
  end.

(** ** The specification's sentence on the doubling of the table *)



(** ** More invariants *)

(** What a call adds to the count of coroutines when it goes through:
    one for a register, minus one for the return of an entry function. *)
Definition nco_change (e : call) : Z :=
  match e with
  | call_new _ _ => 1
  | entry_returns => -1
  | _ => 0
  end.

Fixpoint nco_changes (es : list call) : Z :=
  match es with
  | [] => 0
  | e :: es' => nco_change e + nco_changes es'
  end.

(** A coroutine in the table is Ready, Running or Suspended. *)
Definition status_ok (S : schedule.t) : Prop :=
  forall id C, slot S id = Some (Some C) ->
    coroutine.status C = COROUTINE_READY \/
    coroutine.status C = COROUTINE_RUNNING \/
    coroutine.status C = COROUTINE_SUSPEND.

(** A coroutine that is Running is the one [S->running] names. *)
Definition one_running (S : schedule.t) : Prop :=
  forall id C, slot S id = Some (Some C) ->
    coroutine.status C = COROUTINE_RUNNING -> schedule.running S = id.

(** The capacity is the first one, doubled some number of times. *)
Definition cap_ok (S : schedule.t) : Prop :=
  exists k : nat, schedule.cap S = DEFAULT_COROUTINE * 2 ^ Z.of_nat k.

(** The table has been doubled only when it was full: its capacity is
    the first one, or less than twice the count. *)
Definition snug (S : schedule.t) : Prop :=
  schedule.cap S = DEFAULT_COROUTINE \/
  schedule.cap S < 2 * schedule.nco S.

(** The coroutines fill the slots below [nco] and no other. *)
Definition dense (S : schedule.t) : Prop :=
  forall id, 0 <= id < schedule.cap S ->
    (id < schedule.nco S -> exists C, slot S id = Some (Some C)) /\
    (schedule.nco S <= id -> slot S id = Some None).

(** A table that only registrations have touched. *)
Definition packed (S : schedule.t) : Prop :=
  table_ok S /\ dense S /\ cap_ok S /\ snug S.

(** * Lemmas *)

(** ** Slots under the field updates *)

Lemma slot_range S id c :
  slot S id = Some c ->
  0 <= id < Z.of_nat (length (schedule.co S)).
Proof.
  unfold slot. destruct (Z.ltb_spec id 0) as [Hneg|Hpos]; [discriminate|].
  intros Hl%lookup_lt_Some. lia.
Qed.

Lemma slot_in_range S id :
  0 <= id < Z.of_nat (length (schedule.co S)) ->
  exists c, slot S id = Some c.
Proof.
  intros Hid. unfold slot. destruct (Z.ltb_spec id 0); [lia|].
  apply lookup_lt_is_Some. lia.
Qed.

Lemma slot_with_co_eq S id c c0 :
  slot S id = Some c0 -> slot (with_co S id c) id = Some c.
Proof.
  intros H. pose proof (slot_range _ _ _ H) as Hr. unfold slot, with_co.
  simpl. destruct (Z.ltb_spec id 0); [lia|].
  apply list_lookup_insert_eq. lia.
Qed.

Lemma slot_with_co_ne S id id' c :
  0 <= id -> id' <> id -> slot (with_co S id c) id' = slot S id'.
Proof.
  intros Hid Hne. unfold slot, with_co. simpl.
  destruct (Z.ltb_spec id' 0); [reflexivity|].
  apply list_lookup_insert_ne. lia.
Qed.

Lemma slot_modify_co_eq S id f :
  slot (modify_co S id f) id = option_map (option_map f) (slot S id).
Proof.
  unfold slot, modify_co. simpl.
  destruct (Z.ltb_spec id 0); [reflexivity|].
  rewrite list_lookup_alter_eq.
  destruct (schedule.co S !! Z.to_nat id) as [[C|]|]; reflexivity.
Qed.

Lemma slot_modify_co_ne S id id' f :
  0 <= id -> id' <> id -> slot (modify_co S id f) id' = slot S id'.
Proof.
  intros Hid Hne. unfold slot, modify_co. simpl.
  destruct (Z.ltb_spec id' 0); [reflexivity|].
  apply list_lookup_alter_ne. lia.
Qed.

Lemma slot_with_running S r id : slot (with_running S r) id = slot S id.
Proof. reflexivity. Qed.

Lemma slot_with_nco S n id : slot (with_nco S n) id = slot S id.
Proof. reflexivity. Qed.

Lemma slot_with_stack S stk id : slot (with_stack S stk) id = slot S id.
Proof. reflexivity. Qed.

Lemma slot_with_main S c id : slot (with_main S c) id = slot S id.
Proof. reflexivity. Qed.

(** ** Counting the coroutines of a table *)

Lemma live_cons c co :
  Z.of_nat (live (c :: co)) = occupied c + Z.of_nat (live co).
Proof.
  unfold live. destruct c as [C|].
  - rewrite filter_cons_True by (simpl; eauto). simpl length. simpl. lia.
  - rewrite filter_cons_False by (intros [? ?]; discriminate). simpl. lia.
Qed.

Lemma live_insert co i c c0 :
  co !! i = Some c0 ->
  Z.of_nat (live (<[i := c]> co)) =
  Z.of_nat (live co) - occupied c0 + occupied c.
Proof.
  revert i. induction co as [|x co IH]; intros i Hi; [discriminate|].
  destruct i as [|i]; simpl in *.
  - injection Hi as ->. rewrite !live_cons. lia.
  - rewrite !live_cons. rewrite (IH _ Hi). lia.
Qed.

Lemma live_alter co i (f : coroutine.t -> coroutine.t) :
  live (alter (fmap f) i co) = live co.
Proof.
  revert i. induction co as [|x co IH]; intros i; [reflexivity|].
  apply Nat2Z.inj. destruct i as [|i].
  - change (alter (fmap f) 0%nat (x :: co)) with (fmap f x :: co).
    rewrite !live_cons. destruct x; reflexivity.
  - change (alter (fmap f) (Datatypes.S i) (x :: co))
      with (x :: alter (fmap f) i co).
    rewrite !live_cons. rewrite IH. reflexivity.
Qed.

Lemma live_app co co' :
  Z.of_nat (live (co ++ co')) = Z.of_nat (live co) + Z.of_nat (live co').
Proof.
  induction co as [|x co IH]; [reflexivity|].
  change ((x :: co) ++ co') with (x :: (co ++ co')).
  rewrite !live_cons. lia.
Qed.

Lemma live_replicate_None n : live (replicate n None) = 0%nat.
Proof.
  induction n as [|n IH]; [reflexivity|].
  apply Nat2Z.inj. simpl replicate. rewrite live_cons, IH. reflexivity.
Qed.

Lemma live_le_length co : (live co <= length co)%nat.
Proof. unfold live. apply length_filter. Qed.

(** A table with fewer coroutines than slots has an empty slot. *)
Lemma live_lt_length_empty co :
  (live co < length co)%nat -> exists i, co !! i = Some None.
Proof.
  induction co as [|x co IH]; simpl; [lia|].
  intros H. destruct x as [C|].
  - assert (live co < length co)%nat as H'.
    { pose proof (live_cons (Some C) co). simpl in *. lia. }
    destruct (IH H') as [i Hi]. exists (Datatypes.S i). exact Hi.
  - exists 0%nat. reflexivity.
Qed.

(** ** What each call does when it returns or switches *)

Lemma coroutine_resume_ready id S C :
  schedule.running S = -1 -> 0 <= id < schedule.cap S ->
  slot S id = Some (Some C) ->
  coroutine.status C = COROUTINE_READY ->
  coroutine_resume id S =
  Switched (to_coroutine ctx_mainfunc) (resumed_ready id S).
Proof.
  intros Hrun Hid Hslot Hst. unfold coroutine_resume.
  rewrite Hrun, Hslot, Hst. simpl.
  destruct (Z.leb_spec 0 id); [|lia].
  destruct (Z.ltb_spec id (schedule.cap S)); [|lia]. reflexivity.
Qed.

Lemma coroutine_resume_suspended id S C :
  schedule.running S = -1 -> 0 <= id < schedule.cap S ->
  slot S id = Some (Some C) ->
  coroutine.status C = COROUTINE_SUSPEND ->
  0 <= coroutine.size C <= STACK_SIZE ->
  coroutine.size C <= Z.of_nat (length (coroutine.stack C)) ->
  coroutine_resume id S =
  Switched (to_coroutine (coroutine.ctx C)) (resumed_suspended id C S).
Proof.
  intros Hrun Hid Hslot Hst Hsz Hlen. unfold coroutine_resume.
  rewrite Hrun, Hslot, Hst. simpl.
  destruct (Z.leb_spec 0 id); [|lia].
  destruct (Z.ltb_spec id (schedule.cap S)); [|lia]. simpl.
  destruct (Z.leb_spec 0 (coroutine.size C)); [|lia].
  destruct (Z.leb_spec (coroutine.size C) STACK_SIZE); [|lia].
  destruct (Z.leb_spec (coroutine.size C)
              (Z.of_nat (length (coroutine.stack C)))); [|lia].
  reflexivity.
Qed.

Lemma coroutine_resume_empty id S :
  schedule.running S = -1 -> 0 <= id < schedule.cap S ->
  slot S id = Some None ->
  coroutine_resume id S = Returned tt S.
Proof.
  intros Hrun Hid Hslot. unfold coroutine_resume.
  rewrite Hrun, Hslot. simpl.
  destruct (Z.leb_spec 0 id); [|lia].
  destruct (Z.ltb_spec id (schedule.cap S)); [|lia]. reflexivity.
Qed.

Lemma coroutine_resume_after id S S' :
  after (coroutine_resume id S) = Some S' ->
  schedule.running S = -1 /\ 0 <= id < schedule.cap S /\
  ((slot S id = Some None /\ S' = S) \/
   (exists C, slot S id = Some (Some C) /\
      coroutine.status C = COROUTINE_READY /\ S' = resumed_ready id S) \/
   (exists C, slot S id = Some (Some C) /\
      coroutine.status C = COROUTINE_SUSPEND /\
      0 <= coroutine.size C <= STACK_SIZE /\
      coroutine.size C <= Z.of_nat (length (coroutine.stack C)) /\
      S' = resumed_suspended id C S)).
Proof.
  unfold coroutine_resume.
  destruct (Z.eqb_spec (schedule.running S) (-1)) as [Hrun|Hrun];
    simpl; [|discriminate].
  destruct (Z.leb_spec 0 id) as [Hlo|Hlo]; simpl; [|discriminate].
  destruct (Z.ltb_spec id (schedule.cap S)) as [Hhi|Hhi];
    simpl; [|discriminate].
  destruct (slot S id) as [[C|]|] eqn:Hslot; simpl; [| |discriminate].
  - destruct (Z.eqb_spec (coroutine.status C) COROUTINE_READY) as [Hst|Hst].
    + simpl. intros [= <-]. split; [assumption|]. split; [lia|].
      right. left. exists C. auto.
    + destruct (Z.eqb_spec (coroutine.status C) COROUTINE_SUSPEND)
        as [Hsu|Hsu]; [|discriminate].
      destruct (Z.leb_spec 0 (coroutine.size C)); simpl; [|discriminate].
      destruct (Z.leb_spec (coroutine.size C) STACK_SIZE);
        simpl; [|discriminate].
      destruct (Z.leb_spec (coroutine.size C)
                  (Z.of_nat (length (coroutine.stack C))));
        simpl; [|discriminate].
      intros [= <-]. split; [assumption|]. split; [lia|].
      right. right. exists C. repeat split; auto; lia.
  - intros [= <-]. split; [assumption|]. split; [lia|]. left. auto.
Qed.

Lemma length_stack_bytes stk src n :
  length (stack_bytes stk src n) = Z.to_nat n.
Proof. unfold stack_bytes. rewrite length_fmap, length_seq. reflexivity. Qed.

Lemma coroutine_yield_after addrC dummy S S' :
  after (coroutine_yield addrC dummy S) = Some S' ->
  0 <= schedule.running S /\ 0 < addrC /\ 0 <= dummy <= STACK_SIZE /\
  exists C, slot S (schedule.running S) = Some (Some C) /\
    coroutine_yield addrC dummy S = Switched to_main S' /\
    S' = yielded (schedule.running S) dummy C S.
Proof.
  unfold coroutine_yield.
  destruct (Z.leb_spec 0 (schedule.running S)) as [Hrun|Hrun];
    simpl; [|discriminate].
  destruct (slot S (schedule.running S)) as [c|] eqn:Hslot;
    [|discriminate].
  destruct (Z.ltb_spec 0 addrC) as [Ha|Ha]; simpl; [|discriminate].
  unfold _save_stack. rewrite Hslot.
  destruct (Z.leb_spec (STACK_SIZE - dummy) STACK_SIZE) as [Hd|Hd];
    simpl; [|discriminate].
  destruct c as [C|]; [|discriminate].
  match goal with
  | |- context [if ?b then Returned _ _ else _] =>
      destruct b eqn:Hguard; simpl; [|discriminate]
  end.
  intros [= <-]. apply andb_prop in Hguard as [Hn _].
  apply Z.leb_le in Hn.
  assert (0 <= STACK_SIZE - dummy) as Hn'.
  { destruct (coroutine.cap C <? STACK_SIZE - dummy); exact Hn. }
  repeat split; try lia. exists C. repeat split.
Qed.

Lemma coroutine_yield_ok addrC dummy S C :
  0 <= schedule.running S ->
  slot S (schedule.running S) = Some (Some C) ->
  0 < addrC -> 0 <= dummy <= STACK_SIZE ->
  Z.of_nat (length (coroutine.stack C)) = coroutine.cap C ->
  coroutine_yield addrC dummy S =
  Switched to_main (yielded (schedule.running S) dummy C S).
Proof.
  intros Hrun Hslot Ha Hd Hlen. unfold coroutine_yield, _save_stack.
  rewrite Hslot.
  destruct (Z.leb_spec 0 (schedule.running S)); [|lia].
  destruct (Z.ltb_spec 0 addrC); [|lia].
  destruct (Z.leb_spec (STACK_SIZE - dummy) STACK_SIZE); [|lia].
  cbv beta iota zeta. simpl negb. cbv iota.
  match goal with
  | |- context [if ?b then Returned _ _ else _] =>
      assert (b = true) as ->
  end.
  { apply andb_true_intro.
    destruct (Z.ltb_spec (coroutine.cap C) (STACK_SIZE - dummy));
      simpl; split; try (apply Z.leb_le; lia).
    apply Z.leb_le. rewrite length_replicate. lia. }
  reflexivity.
Qed.

(** The scan returns the first empty slot it looks at, and nothing but
    returning or the final [assert(0)] ends it on a table of [cap]
    slots. *)
Lemma coroutine_new_scan_returned left i c S id S' :
  coroutine_new_scan left i c S = Returned id S' ->
  exists j, i <= j < i + Z.of_nat left /\
    id = Z.rem (j + schedule.nco S) (schedule.cap S) /\
    slot S id = Some None /\
    (forall k, i <= k < j ->
       exists C, slot S (Z.rem (k + schedule.nco S) (schedule.cap S))
                 = Some (Some C)) /\
    S' = registered id c S.
Proof.
  revert i. induction left as [|left IH]; intros i; simpl; [discriminate|].
  destruct (slot S (Z.rem (i + schedule.nco S) (schedule.cap S)))
    as [[C|]|] eqn:Hslot; [| |discriminate].
  - intros H. destruct (IH _ H) as (j & Hj & Hid & Hfree & Hocc & HS').
    exists j. repeat split; try lia; try assumption.
    intros k Hk. destruct (Z.eq_dec k i) as [->|Hne]; [eauto|].
    apply Hocc. lia.
  - intros [= <- <-]. exists i. repeat split; try lia; try assumption.
Qed.

Lemma coroutine_new_scan_finds left i c S j :
  i <= j < i + Z.of_nat left ->
  slot S (Z.rem (j + schedule.nco S) (schedule.cap S)) = Some None ->
  (forall k, i <= k < j ->
     exists C, slot S (Z.rem (k + schedule.nco S) (schedule.cap S))
               = Some (Some C)) ->
  coroutine_new_scan left i c S =
  Returned (Z.rem (j + schedule.nco S) (schedule.cap S))
    (registered (Z.rem (j + schedule.nco S) (schedule.cap S)) c S).
Proof.
  revert i. induction left as [|left IH]; intros i Hj Hfree Hocc;
    [lia|]. simpl.
  destruct (Z.eq_dec i j) as [->|Hne].
  - rewrite Hfree. reflexivity.
  - destruct (Hocc i) as [C HC]; [lia|]. rewrite HC.
    apply IH; [lia|assumption|]. intros k Hk. apply Hocc. lia.
Qed.

Lemma coroutine_new_after func ud S S' :
  after (coroutine_new func ud S) = Some S' ->
  exists id, coroutine_new func ud S = Returned id S' /\
    ((schedule.cap S <= schedule.nco S /\ id = schedule.cap S /\
      S' = grown (_co_new func ud) S) \/
     (schedule.nco S < schedule.cap S /\ slot S id = Some None /\
      S' = registered id (_co_new func ud) S)).
Proof.
  unfold coroutine_new.
  destruct (Z.leb_spec (schedule.cap S) (schedule.nco S)) as [Hfull|Hfree].
  - simpl. intros [= <-]. eexists. split; [reflexivity|]. left. auto.
  - destruct (coroutine_new_scan _ _ _ _) as [id S1| | |] eqn:Hscan;
      simpl; try discriminate.
    + intros [= <-]. exists id. split; [reflexivity|]. right.
      apply coroutine_new_scan_returned in Hscan
        as (j & _ & _ & Hslot & _ & ->). auto.
    + exfalso. clear -Hscan.
      revert Hscan. generalize 0. generalize (Z.to_nat (schedule.cap S)).
      intros left. induction left as [|left IH]; intros i; simpl;
        [discriminate|].
      destruct (slot S _) as [[C|]|]; try discriminate. apply IH.
Qed.

(** What register does to the count, the running id and the capacity. *)
Lemma coroutine_new_shape func ud S id S' :
  coroutine_new func ud S = Returned id S' ->
  schedule.nco S' = schedule.nco S + 1 /\
  schedule.running S' = schedule.running S /\
  ((schedule.nco S < schedule.cap S /\ schedule.cap S' = schedule.cap S) \/
   (schedule.cap S <= schedule.nco S /\
    schedule.cap S' = schedule.cap S * 2)).
Proof.
  intros Hnew.
  assert (after (coroutine_new func ud S) = Some S') as Hafter
    by (rewrite Hnew; reflexivity).
  apply coroutine_new_after in Hafter
    as (id0 & _ & [(Hfull & _ & ->)|(Hfree & _ & ->)]);
    simpl; repeat split; auto.
Qed.

Lemma mainfunc_return_after id S S' :
  after (mainfunc_return id S) = Some S' ->
  exists C, slot S id = Some (Some C) /\ S' = finished id S.
Proof.
  unfold mainfunc_return.
  destruct (slot S id) as [[C|]|]; simpl; try discriminate.
  intros [= <-]. eauto.
Qed.

(** ** Slots after each call *)

Lemma slot_grown_old c S id x :
  id < schedule.cap S -> slot S id = Some x ->
  slot (grown c S) id = Some x.
Proof.
  intros Hid Hslot. pose proof (slot_range _ _ _ Hslot) as Hr.
  unfold slot, grown in *. simpl.
  destruct (Z.ltb_spec id 0); [lia|].
  rewrite list_lookup_insert_ne by lia.
  rewrite lookup_app_l by lia. exact Hslot.
Qed.

Lemma slot_grown_first c S :
  Z.of_nat (length (schedule.co S)) = schedule.cap S ->
  0 < schedule.cap S ->
  slot (grown c S) (schedule.cap S) = Some (Some c).
Proof.
  intros Hlen Hcap. unfold slot, grown. simpl.
  destruct (Z.ltb_spec (schedule.cap S) 0); [lia|].
  apply list_lookup_insert_eq. rewrite length_app, length_replicate. lia.
Qed.

Lemma slot_grown_rest c S id :
  Z.of_nat (length (schedule.co S)) = schedule.cap S ->
  schedule.cap S < id < schedule.cap S * 2 ->
  slot (grown c S) id = Some None.
Proof.
  intros Hlen Hid. unfold slot, grown. simpl.
  destruct (Z.ltb_spec id 0); [lia|].
  rewrite list_lookup_insert_ne by lia.
  rewrite lookup_app_r by lia.
  apply lookup_replicate_2. lia.
Qed.

Lemma slot_registered_eq id c S :
  slot S id = Some None -> slot (registered id c S) id = Some (Some c).
Proof.
  intros H. unfold registered. rewrite slot_with_nco.
  eapply slot_with_co_eq. exact H.
Qed.

Lemma slot_registered_ne id id' c S :
  0 <= id -> id' <> id -> slot (registered id c S) id' = slot S id'.
Proof.
  intros Hid Hne. unfold registered. rewrite slot_with_nco.
  apply slot_with_co_ne; assumption.
Qed.

Lemma slot_resumed_ready_eq id S C :
  slot S id = Some (Some C) ->
  slot (resumed_ready id S) id =
  Some (Some (set_status COROUTINE_RUNNING (set_ctx ctx_mainfunc C))).
Proof.
  intros H. unfold resumed_ready.
  rewrite slot_with_main, slot_with_running, !slot_modify_co_eq, H.
  reflexivity.
Qed.

Lemma slot_resumed_ready_ne id id' S :
  0 <= id -> id' <> id -> slot (resumed_ready id S) id' = slot S id'.
Proof.
  intros Hid Hne. unfold resumed_ready.
  rewrite slot_with_main, slot_with_running.
  rewrite !slot_modify_co_ne by assumption. reflexivity.
Qed.

Lemma slot_resumed_suspended_eq id S C C0 :
  slot S id = Some (Some C) ->
  slot (resumed_suspended id C0 S) id =
  Some (Some (set_status COROUTINE_RUNNING C)).
Proof.
  intros H. unfold resumed_suspended.
  rewrite slot_with_main, slot_modify_co_eq, slot_with_running,
    slot_with_stack, H.
  reflexivity.
Qed.

Lemma slot_resumed_suspended_ne id id' S C0 :
  0 <= id -> id' <> id ->
  slot (resumed_suspended id C0 S) id' = slot S id'.
Proof.
  intros Hid Hne. unfold resumed_suspended.
  rewrite slot_with_main, slot_modify_co_ne by assumption.
  reflexivity.
Qed.

Lemma slot_yielded_eq id dummy S C C0 :
  slot S id = Some C0 ->
  slot (yielded id dummy C S) id =
  Some (Some (set_ctx ctx_in_yield
                (set_status COROUTINE_SUSPEND
                   (saved (schedule.stack S) dummy C)))).
Proof.
  intros H. unfold yielded.
  rewrite slot_modify_co_eq, slot_with_running, slot_modify_co_eq.
  erewrite slot_with_co_eq by exact H. reflexivity.
Qed.

Lemma slot_yielded_ne id id' dummy S C :
  0 <= id -> id' <> id -> slot (yielded id dummy C S) id' = slot S id'.
Proof.
  intros Hid Hne. unfold yielded.
  rewrite slot_modify_co_ne, slot_with_running by assumption.
  rewrite slot_modify_co_ne by assumption.
  apply slot_with_co_ne; assumption.
Qed.

Lemma slot_finished_eq id S c :
  slot S id = Some c -> slot (finished id S) id = Some None.
Proof.
  intros H. unfold finished.
  rewrite slot_with_running, slot_with_nco.
  eapply slot_with_co_eq. exact H.
Qed.

Lemma slot_finished_ne id id' S :
  0 <= id -> id' <> id -> slot (finished id S) id' = slot S id'.
Proof.
  intros Hid Hne. unfold finished.
  rewrite slot_with_running, slot_with_nco.
  apply slot_with_co_ne; assumption.
Qed.

Lemma exec_step e S S' : exec e S = Some S' -> step S e S'.
Proof.
  destruct e as [func ud|id|addrC dummy|id| | |off b]; simpl.
  - intros H. apply coroutine_new_after in H
      as (id & _ & [(Hfull & _ & ->)|(Hfree & Hslot & ->)]).
    + apply step_grow. assumption.
    + apply step_register; assumption.
  - intros H. apply coroutine_resume_after in H
      as (Hrun & Hid & [(Hslot & ->)|[(C & Hslot & Hst & ->)|
           (C & Hslot & Hst & Hsz & Hlen & ->)]]).
    + apply step_resume_empty; assumption.
    + eapply step_resume_ready; eassumption.
    + eapply step_resume_suspended; eassumption.
  - intros H. apply coroutine_yield_after in H
      as (Hrun & Ha & Hd & C & Hslot & _ & ->).
    apply step_yield; assumption.
  - unfold coroutine_status.
    destruct (negb _); simpl; [discriminate|].
    destruct (slot S id) as [[C|]|]; simpl; try discriminate;
      intros [= <-]; apply step_status.
  - intros [= <-]. apply step_running.
  - intros H. apply mainfunc_return_after in H as (C & Hslot & ->).
    eapply step_return. eassumption.
  - destruct (Z.leb_spec 0 (schedule.running S)); simpl; [|discriminate].
    destruct (Z.leb_spec 0 off); simpl; [|discriminate].
    destruct (Z.ltb_spec off STACK_SIZE); simpl; [|discriminate].
    intros [= <-]. apply step_store; [assumption|lia].
Qed.

(** ** The invariants hold in every execution *)

Lemma running_ok_step S e S' : running_ok S -> step S e S' -> running_ok S'.
Proof.
  intros Hok Hstep.
  destruct Hstep as [func ud Hfull|func ud id Hfree Hslot|id _ _ _
    |id C Hrun Hid Hslot Hst|id C Hrun Hid Hslot Hst Hsz Hlen
    |addrC dummy C Hrun Ha Hd Hslot|id| |C Hslot|off b Hrun Hoff];
    try exact Hok.
  - destruct Hok as [Hnone|(Hr & C & Hslot & Hst)]; [left; exact Hnone|].
    right. simpl. split; [lia|]. exists C. split; [|exact Hst].
    apply slot_grown_old; [lia|exact Hslot].
  - destruct Hok as [Hnone|(Hr & C & HC & Hst)]; [left; exact Hnone|].
    right. simpl. split; [exact Hr|]. exists C. split; [|exact Hst].
    pose proof (slot_range _ _ _ Hslot).
    rewrite slot_registered_ne; [exact HC|lia|].
    intros Heq. rewrite Heq in HC. congruence.
  - right. simpl. split; [exact Hid|]. eexists. split.
    + apply slot_resumed_ready_eq. exact Hslot.
    + reflexivity.
  - right. simpl. split; [exact Hid|]. eexists. split.
    + eapply slot_resumed_suspended_eq. exact Hslot.
    + reflexivity.
  - left. reflexivity.
  - left. reflexivity.
Qed.

Lemma block_ok_new func ud : block_ok (_co_new func ud).
Proof. unfold block_ok, STACK_SIZE. simpl. lia. Qed.

Lemma length_saved stk dummy C :
  0 <= dummy <= STACK_SIZE ->
  Z.of_nat (length (coroutine.stack C)) = coroutine.cap C ->
  Z.of_nat (length (coroutine.stack (saved stk dummy C))) =
  coroutine.cap (saved stk dummy C) /\
  coroutine.cap (saved stk dummy C) =
  Z.max (coroutine.cap C) (STACK_SIZE - dummy).
Proof.
  intros Hd Hlen. unfold saved, block_write.
  destruct (Z.ltb_spec (coroutine.cap C) (STACK_SIZE - dummy));
    simpl; rewrite length_app, length_drop, length_stack_bytes;
    [rewrite length_replicate|]; lia.
Qed.

Lemma block_ok_saved stk dummy C :
  0 <= dummy <= STACK_SIZE ->
  Z.of_nat (length (coroutine.stack C)) = coroutine.cap C ->
  block_ok (saved stk dummy C).
Proof.
  intros Hd Hlen. destruct (length_saved stk dummy C Hd Hlen) as [H1 H2].
  unfold block_ok. split; [exact H1|]. rewrite H2.
  assert (coroutine.size (saved stk dummy C) = STACK_SIZE - dummy) as ->.
  { unfold saved. reflexivity. }
  lia.
Qed.

Lemma slot_lookup S id x :
  slot S id = Some x -> 0 <= id /\ schedule.co S !! Z.to_nat id = Some x.
Proof.
  unfold slot. destruct (Z.ltb_spec id 0); [discriminate|]. auto.
Qed.

Lemma table_ok_step S e S' : table_ok S -> step S e S' -> table_ok S'.
Proof.
  intros (Hlen & Hcap & Hnco) Hstep.
  destruct Hstep as [func ud Hfull|func ud id Hfree Hslot|id _ _ _
    |id C Hrun Hid Hslot Hst|id C Hrun Hid Hslot Hst Hsz Hlen'
    |addrC dummy C Hrun Ha Hd Hslot|id| |C Hslot|off b Hrun Hoff];
    unfold table_ok; simpl;
    try (split; [|split]; assumption).
  - rewrite length_insert, length_app, length_replicate.
    split; [lia|]. split; [lia|].
    rewrite (live_insert _ _ _ None).
    + rewrite live_app, live_replicate_None. simpl. lia.
    + rewrite lookup_app_r by lia. apply lookup_replicate_2. lia.
  - apply slot_lookup in Hslot as [_ Hslot].
    rewrite length_insert. split; [lia|]. split; [lia|].
    erewrite live_insert by exact Hslot. simpl. lia.
  - rewrite !length_alter, !live_alter. auto.
  - rewrite !length_alter, !live_alter. auto.
  - apply slot_lookup in Hslot as [_ Hslot].
    rewrite !length_alter, !live_alter, length_insert.
    split; [lia|]. split; [lia|].
    erewrite live_insert by exact Hslot. simpl. lia.
  - apply slot_lookup in Hslot as [_ Hslot].
    rewrite length_insert. split; [lia|]. split; [lia|].
    erewrite live_insert by exact Hslot. simpl. lia.
Qed.

Lemma slot_grown_inv c S id C :
  slot (grown c S) id = Some (Some C) ->
  C = c \/ slot S id = Some (Some C).
Proof.
  unfold slot, grown. simpl.
  destruct (Z.ltb_spec id 0) as [Hneg|Hpos]; [discriminate|].
  intros H. apply list_lookup_insert_Some in H
    as [(_ & Heq & _)|(_ & H)].
  - left. congruence.
  - apply lookup_app_Some in H as [H|[_ H]]; [right; exact H|].
    apply lookup_replicate in H as [? _]. discriminate.
Qed.

Lemma block_ok_set_status v C : block_ok C -> block_ok (set_status v C).
Proof. intros H. exact H. Qed.

Lemma block_ok_set_ctx c C : block_ok C -> block_ok (set_ctx c C).
Proof. intros H. exact H. Qed.

Lemma blocks_ok_step S e S' : blocks_ok S -> step S e S' -> blocks_ok S'.
Proof.
  intros Hok Hstep.
  destruct Hstep as [func ud Hfull|func ud id Hfree Hslot|id _ _ _
    |id C Hrun Hid Hslot Hst|id C Hrun Hid Hslot Hst Hsz Hlen
    |addrC dummy C Hrun Ha Hd Hslot|id| |C Hslot|off b Hrun Hoff];
    try exact Hok; intros id' C' HC'.
  - apply slot_grown_inv in HC' as [->|HC'];
      [apply block_ok_new|eapply Hok; exact HC'].
  - pose proof (slot_range _ _ _ Hslot) as Hr.
    destruct (Z.eq_dec id' id) as [->|Hne].
    + rewrite slot_registered_eq in HC' by exact Hslot.
      injection HC' as <-. apply block_ok_new.
    + rewrite slot_registered_ne in HC' by lia. eapply Hok; exact HC'.
  - destruct (Z.eq_dec id' id) as [->|Hne].
    + erewrite slot_resumed_ready_eq in HC' by exact Hslot.
      injection HC' as <-. apply block_ok_set_status, block_ok_set_ctx.
      eapply Hok; exact Hslot.
    + rewrite slot_resumed_ready_ne in HC' by lia. eapply Hok; exact HC'.
  - destruct (Z.eq_dec id' id) as [->|Hne].
    + erewrite slot_resumed_suspended_eq in HC' by exact Hslot.
      injection HC' as <-. apply block_ok_set_status.
      eapply Hok; exact Hslot.
    + rewrite slot_resumed_suspended_ne in HC' by lia.
      eapply Hok; exact HC'.
  - destruct (Z.eq_dec id' (schedule.running S)) as [->|Hne].
    + erewrite slot_yielded_eq in HC' by exact Hslot.
      injection HC' as <-. apply block_ok_set_ctx, block_ok_set_status.
      apply block_ok_saved; [exact Hd|].
      apply (Hok _ _ Hslot).
    + rewrite slot_yielded_ne in HC' by lia. eapply Hok; exact HC'.
  - destruct (Z.eq_dec id' (schedule.running S)) as [->|Hne].
    + erewrite slot_finished_eq in HC' by exact Hslot. discriminate.
    + pose proof (slot_range _ _ _ Hslot).
      rewrite slot_finished_ne in HC' by lia. eapply Hok; exact HC'.
Qed.

Lemma sched_ok_step S e S' : sched_ok S -> step S e S' -> sched_ok S'.
Proof.
  intros (Ht & Hr & Hb) Hstep. split; [|split].
  - eapply table_ok_step; eassumption.
  - eapply running_ok_step; eassumption.
  - eapply blocks_ok_step; eassumption.
Qed.

Lemma sched_ok_open garbage : sched_ok (coroutine_open garbage).
Proof.
  split; [|split].
  - unfold table_ok. simpl. repeat split; reflexivity.
  - left. reflexivity.
  - intros id C H. apply slot_lookup in H as [_ H].
    unfold coroutine_open, schedule.co in H.
    apply lookup_replicate in H as [? _]. discriminate.
Qed.

Lemma sched_ok_execs es S S' :
  sched_ok S -> execs es S = Some S' -> sched_ok S'.
Proof.
  revert S. induction es as [|e es IH]; intros S Hok; simpl.
  - intros [= <-]. exact Hok.
  - destruct (exec e S) as [S1|] eqn:He; [|discriminate].
    apply IH. eapply sched_ok_step; [exact Hok|].
    apply exec_step. exact He.
Qed.

(** Every scheduler an execution reaches satisfies the invariants. *)
Lemma reachable_ok S : reachable S -> sched_ok S.
Proof.
  intros (garbage & es & H).
  eapply sched_ok_execs; [apply sched_ok_open|exact H].
Qed.

Lemma runs_reachable es garbage :
  runs es (coroutine_open garbage) = true ->
  reachable
    (default (coroutine_open garbage) (execs es (coroutine_open garbage))).
Proof.
  unfold runs. intros H. exists garbage, es.
  destruct (execs es (coroutine_open garbage)); [reflexivity|discriminate].
Qed.

Lemma demo_reachable : reachable demo.
Proof. apply (runs_reachable demo_calls zeros). vm_compute. reflexivity. Qed.

Lemma demo_ok : sched_ok demo.
Proof. apply reachable_ok, demo_reachable. Qed.

Lemma demo_slot : slot demo 0 = Some (Some demo_co).
Proof. vm_compute. reflexivity. Qed.

(** * The properties of the specification *)

(** ** Resume *)

(** C9. A call of resume while a coroutine is running, or with an id
    outside [0, cap), fails its assertion, and the scheduler at the
    abort is the scheduler of the call: nothing has been changed, the
    call is neither queued nor ignored. *)
Theorem coroutine_resume_asserts id S :
  schedule.running S <> -1 \/ id < 0 \/ schedule.cap S <= id ->
  coroutine_resume id S = Aborted S.
Proof.
  intros H. unfold coroutine_resume.
  destruct (Z.eqb_spec (schedule.running S) (-1)) as [Hrun|Hrun];
    simpl; [|reflexivity].
  destruct (Z.leb_spec 0 id); simpl; [|reflexivity].
  destruct (Z.ltb_spec id (schedule.cap S)); simpl; [|reflexivity].
  lia.
Qed.

Lemma coroutine_resume_asserts_witness :
  coroutine_resume 1 (with_running demo 0) = Aborted (with_running demo 0)
  /\ coroutine_resume 32 demo = Aborted demo.
Proof.
  split.
  - apply (coroutine_resume_asserts 1 (with_running demo 0)).
    left. vm_compute. discriminate.
  - apply (coroutine_resume_asserts 32 demo).
    right. right. vm_compute. discriminate.
Defined.

(** C10. With no coroutine running, resume of an id in [0, cap) whose
    slot is empty (its status reads Dead) returns normally and leaves the
    whole scheduler as it was. *)
Theorem coroutine_resume_empty_slot id S :
  schedule.running S = -1 -> 0 <= id < schedule.cap S ->
  slot S id = Some None ->
  coroutine_status id S = Returned COROUTINE_DEAD S /\
  coroutine_resume id S = Returned tt S.
Proof.
  intros Hrun Hid Hslot. split.
  - unfold coroutine_status. rewrite Hslot.
    destruct (Z.leb_spec 0 id); [|lia].
    destruct (Z.ltb_spec id (schedule.cap S)); [|lia]. reflexivity.
  - apply coroutine_resume_empty; assumption.
Qed.

Lemma coroutine_resume_empty_slot_witness :
  coroutine_status 5 demo = Returned COROUTINE_DEAD demo /\
  coroutine_resume 5 demo = Returned tt demo.
Proof.
  apply (coroutine_resume_empty_slot 5 demo).
  - vm_compute. reflexivity.
  - between.
  - vm_compute. reflexivity.
Defined.

(** C4, counterexample.  On the scheduler just opened nothing runs and
    slot 0 is empty (its status reads Dead), yet resume of id 0 returns
    with the scheduler unchanged; so the sentence as stated is false. *)
Lemma resume_fatal_as_stated_fails :
  schedule.running (coroutine_open zeros) = -1 /\
  coroutine_status 0 (coroutine_open zeros)
  = Returned COROUTINE_DEAD (coroutine_open zeros) /\
  coroutine_resume 0 (coroutine_open zeros)
  = Returned tt (coroutine_open zeros) /\
  ~ resume_fatal_as_stated.
Proof.
  split; [reflexivity|]. split; [reflexivity|]. split; [reflexivity|].
  intros H.
  destruct (H (coroutine_open zeros) 0) as [S' HS'].
  - reflexivity.
  - between.
  - left. reflexivity.
  - discriminate HS'.
Qed.

(** C4, amended.  With no coroutine running and an id in [0, cap): when
    the slot holds a coroutine that is neither Ready nor Suspended the
    call aborts; when the slot is empty the call does not abort, it
    returns. *)
Theorem coroutine_resume_other_state id S :
  schedule.running S = -1 -> 0 <= id < schedule.cap S ->
  (forall C, slot S id = Some (Some C) ->
     coroutine.status C <> COROUTINE_READY ->
     coroutine.status C <> COROUTINE_SUSPEND ->
     coroutine_resume id S = Aborted S) /\
  (slot S id = Some None -> coroutine_resume id S = Returned tt S).
Proof.
  intros Hrun Hid. split.
  - intros C Hslot Hready Hsusp. unfold coroutine_resume.
    rewrite Hrun, Hslot. simpl.
    destruct (Z.leb_spec 0 id); [|lia].
    destruct (Z.ltb_spec id (schedule.cap S)); [|lia]. simpl.
    destruct (Z.eqb_spec (coroutine.status C) COROUTINE_READY);
      [contradiction|].
    destruct (Z.eqb_spec (coroutine.status C) COROUTINE_SUSPEND);
      [contradiction|].
    reflexivity.
  - intros Hslot. apply coroutine_resume_empty; assumption.
Qed.

Lemma coroutine_resume_other_state_witness :
  coroutine_resume 0 demo_stale = Aborted demo_stale /\
  coroutine_resume 5 demo_stale = Returned tt demo_stale.
Proof.
  split.
  - apply (coroutine_resume_other_state 0 demo_stale)
      with (C := set_status COROUTINE_RUNNING demo_co).
    + vm_compute. reflexivity.
    + between.
    + vm_compute. reflexivity.
    + vm_compute. discriminate.
    + vm_compute. discriminate.
  - apply (coroutine_resume_other_state 5 demo_stale).
    + vm_compute. reflexivity.
    + between.
    + vm_compute. reflexivity.
Defined.

(** ** Copying between the stack and a block *)

Lemma stack_bytes_lookup stk src n i :
  (i < Z.to_nat n)%nat ->
  stack_bytes stk src n !! i = Some (stk (src + Z.of_nat i)).
Proof.
  intros Hi. unfold stack_bytes.
  rewrite list_lookup_fmap, lookup_seq_lt by exact Hi. reflexivity.
Qed.

Lemma stack_write_inside stk dst buf n k :
  dst <= k < dst + n ->
  stack_write stk dst buf n k = nth (Z.to_nat (k - dst)) buf x00.
Proof.
  intros Hk. unfold stack_write.
  destruct (Z.leb_spec dst k); [|lia].
  destruct (Z.ltb_spec k (dst + n)); [|lia]. reflexivity.
Qed.

Lemma stack_write_outside stk dst buf n k :
  k < dst \/ dst + n <= k -> stack_write stk dst buf n k = stk k.
Proof.
  intros Hk. unfold stack_write.
  destruct (Z.leb_spec dst k); [|reflexivity].
  destruct (Z.ltb_spec k (dst + n)); [lia|reflexivity].
Qed.

(** What [memcpy] wrote to the stack is the head of the block. *)
Lemma stack_bytes_write stk dst buf n :
  0 <= n <= Z.of_nat (length buf) ->
  stack_bytes (stack_write stk dst buf n) dst n = take (Z.to_nat n) buf.
Proof.
  intros Hn. apply list_eq. intros i.
  destruct (decide (i < Z.to_nat n)%nat) as [Hi|Hi].
  - rewrite stack_bytes_lookup, lookup_take_lt by exact Hi.
    rewrite stack_write_inside by lia.
    replace (Z.to_nat (dst + Z.of_nat i - dst)) with i by lia.
    destruct (nth_lookup_or_length buf i x00) as [->|Hlen];
      [reflexivity|lia].
  - rewrite !(proj2 (lookup_ge_None _ _)); [reflexivity| |].
    + rewrite length_take. lia.
    + rewrite length_stack_bytes. lia.
Qed.

(** What [memcpy] wrote to the block is what the stack held. *)
Lemma take_block_write buf bytes :
  take (length bytes) (block_write buf bytes) = bytes.
Proof. unfold block_write. apply take_app_length. Qed.

Lemma drop_block_write buf bytes :
  drop (length bytes) (block_write buf bytes) = drop (length bytes) buf.
Proof. unfold block_write. apply drop_app_length. Qed.

Lemma nth_block_write buf stk src n i :
  (i < Z.to_nat n)%nat ->
  nth i (block_write buf (stack_bytes stk src n)) x00 =
  stk (src + Z.of_nat i).
Proof.
  intros Hi. apply nth_lookup_Some. unfold block_write.
  rewrite lookup_app_l by (rewrite length_stack_bytes; exact Hi).
  apply stack_bytes_lookup. exact Hi.
Qed.

(** ** Resume of a suspended coroutine *)

(** C2. On a scheduler with no coroutine running whose slot [id] holds a
    Suspended coroutine with saved size [s], resume switches from the
    main context into the coroutine's saved context with: the [s] bytes
    of the stack from offset [STACK_SIZE - s] on equal to the [s] saved
    bytes of the private block, the rest of the stack as it was, the
    coroutine Running, and [id] the running id. *)
Theorem coroutine_resume_restores id S C :
  sched_ok S ->
  schedule.running S = -1 ->
  slot S id = Some (Some C) ->
  coroutine.status C = COROUTINE_SUSPEND ->
  exists S',
    coroutine_resume id S = Switched (to_coroutine (coroutine.ctx C)) S' /\
    stack_bytes (schedule.stack S')
      (STACK_SIZE - coroutine.size C) (coroutine.size C)
    = take (Z.to_nat (coroutine.size C)) (coroutine.stack C) /\
    (forall k, k < STACK_SIZE - coroutine.size C \/ STACK_SIZE <= k ->
       schedule.stack S' k = schedule.stack S k) /\
    slot S' id = Some (Some (set_status COROUTINE_RUNNING C)) /\
    coroutine.status (set_status COROUTINE_RUNNING C) = COROUTINE_RUNNING /\
    schedule.running S' = id /\
    schedule.main S' = ctx_in_resume.
Proof.
  intros ((Hlen & Hcap & _) & _ & Hblocks) Hrun Hslot Hst.
  destruct (Hblocks _ _ Hslot) as (Hblen & Hsz & Hmax).
  pose proof (slot_range _ _ _ Hslot) as Hid.
  exists (resumed_suspended id C S). split.
  { apply coroutine_resume_suspended; try assumption; lia. }
  split.
  { simpl. apply stack_bytes_write. lia. }
  split.
  { intros k Hk. simpl. apply stack_write_outside. lia. }
  split.
  { eapply slot_resumed_suspended_eq. exact Hslot. }
  repeat split.
Qed.

Lemma coroutine_resume_restores_witness :
  exists S',
    coroutine_resume 0 demo = Switched (to_coroutine ctx_in_yield) S' /\
    stack_bytes (schedule.stack S') (STACK_SIZE - 6) 6
    = ["c"; x00; x00; x00; "b"; "a"]%byte.
Proof.
  destruct (coroutine_resume_restores 0 demo demo_co)
    as (S' & Hres & Hbytes & _).
  - exact demo_ok.
  - vm_compute. reflexivity.
  - exact demo_slot.
  - reflexivity.
  - exists S'. split; [exact Hres|exact Hbytes].
Defined.

(** ** Register *)

Lemma scan_index S k :
  table_ok S -> 0 <= k ->
  Z.rem (k + schedule.nco S) (schedule.cap S) =
  (k + schedule.nco S) mod schedule.cap S /\
  0 <= (k + schedule.nco S) mod schedule.cap S < schedule.cap S.
Proof.
  intros (Hlen & Hcap & Hnco) Hk. split.
  - apply Z.rem_mod_nonneg; lia.
  - apply Z.mod_pos_bound. lia.
Qed.

Lemma coroutine_new_scan_total left i c S :
  table_ok S -> 0 <= i ->
  (exists j, i <= j < i + Z.of_nat left /\
     slot S (Z.rem (j + schedule.nco S) (schedule.cap S)) = Some None) ->
  exists id S', coroutine_new_scan left i c S = Returned id S'.
Proof.
  intros Hok. revert i.
  induction left as [|left IH]; intros i Hi (j & Hj & Hfree); [lia|].
  simpl.
  destruct (scan_index S i Hok Hi) as [Hrem Hrange].
  destruct (slot_in_range S (Z.rem (i + schedule.nco S) (schedule.cap S)))
    as [[C|] Hslot].
  { destruct Hok as (Hlen & _). lia. }
  - rewrite Hslot. apply IH; [lia|]. exists j. split; [|exact Hfree].
    destruct (Z.eq_dec i j) as [->|Hne]; [congruence|lia].
  - rewrite Hslot. eauto.
Qed.

(** On a table with fewer coroutines than slots some scan index meets an
    empty slot. *)
Lemma scan_meets_empty S :
  table_ok S -> schedule.nco S < schedule.cap S ->
  exists j, 0 <= j < schedule.cap S /\
    slot S (Z.rem (j + schedule.nco S) (schedule.cap S)) = Some None.
Proof.
  intros Hok Hfree. pose proof Hok as (Hlen & Hcap & Hnco).
  destruct (live_lt_length_empty (schedule.co S)) as [e He]; [lia|].
  pose proof (lookup_lt_Some _ _ _ He) as Hlt.
  exists ((Z.of_nat e - schedule.nco S) mod schedule.cap S).
  assert (0 <= (Z.of_nat e - schedule.nco S) mod schedule.cap S
          < schedule.cap S) as Hj by (apply Z.mod_pos_bound; lia).
  split; [exact Hj|].
  destruct (scan_index S _ Hok (proj1 Hj)) as [-> _].
  rewrite Zplus_mod_idemp_l.
  replace (Z.of_nat e - schedule.nco S + schedule.nco S)
    with (Z.of_nat e) by lia.
  rewrite Z.mod_small by lia.
  unfold slot. destruct (Z.ltb_spec (Z.of_nat e) 0); [lia|].
  rewrite Nat2Z.id. exact He.
Qed.

(** Register always returns on a well-formed table, and the id it
    returns then holds the new coroutine. *)
Lemma coroutine_new_ok func ud S :
  table_ok S ->
  exists id S',
    coroutine_new func ud S = Returned id S' /\
    step S (call_new func ud) S' /\
    0 <= id < schedule.cap S' /\
    slot S' id = Some (Some (_co_new func ud)).
Proof.
  intros Hok. pose proof Hok as (Hlen & Hcap & Hnco).
  destruct (Z.le_gt_cases (schedule.cap S) (schedule.nco S))
    as [Hfull|Hfree].
  - exists (schedule.cap S), (grown (_co_new func ud) S).
    split; [|split; [|split]].
    + unfold coroutine_new.
      destruct (Z.leb_spec (schedule.cap S) (schedule.nco S)); [|lia].
      reflexivity.
    + apply step_grow. exact Hfull.
    + simpl. lia.
    + apply slot_grown_first; assumption.
  - destruct (scan_meets_empty S Hok) as (j & Hj & Hempty); [lia|].
    destruct (coroutine_new_scan_total (Z.to_nat (schedule.cap S)) 0
                (_co_new func ud) S Hok) as (id & S' & Hscan).
    { lia. }
    { exists j. split; [lia|exact Hempty]. }
    exists id, S'.
    assert (coroutine_new func ud S = Returned id S') as Hnew.
    { unfold coroutine_new.
      destruct (Z.leb_spec (schedule.cap S) (schedule.nco S)); [lia|].
      exact Hscan. }
    apply coroutine_new_scan_returned in Hscan
      as (j' & Hj' & Hid & Hslot & _ & ->).
    split; [exact Hnew|]. split; [|split].
    + apply step_register; [lia|exact Hslot].
    + pose proof (slot_range _ _ _ Hslot). simpl. lia.
    + apply slot_registered_eq. exact Hslot.
Qed.








(** ** Yield *)

(** C3. On a well-formed scheduler with a coroutine running, a yield
    from a frame inside the stack, with [n = STACK_SIZE - dummy] bytes
    between that frame and the top of the stack: control switches to the
    main context; byte [k] of the private block, for each [k] below [n],
    is the byte that the stack holds at offset [dummy + k] when
    [_save_stack] copies it; the recorded size is [n]; the block is
    reallocated, to exactly [n] bytes, only when its capacity was below
    [n], otherwise its capacity and its bytes past [n] stay, so the
    capacity never shrinks; the coroutine is Suspended and the running
    id is [-1]. *)
Theorem coroutine_yield_saves addrC dummy S :
  sched_ok S ->
  0 <= schedule.running S ->
  0 < addrC -> 0 <= dummy <= STACK_SIZE ->
  exists C S' C',
    slot S (schedule.running S) = Some (Some C) /\
    coroutine_yield addrC dummy S = Switched to_main S' /\
    slot S' (schedule.running S) = Some (Some C') /\
    (forall k, 0 <= k < STACK_SIZE - dummy ->
       coroutine.stack C' !! Z.to_nat k
       = Some (schedule.stack S (dummy + k))) /\
    coroutine.size C' = STACK_SIZE - dummy /\
    (coroutine.cap C < STACK_SIZE - dummy ->
     coroutine.cap C' = STACK_SIZE - dummy) /\
    (STACK_SIZE - dummy <= coroutine.cap C ->
     coroutine.cap C' = coroutine.cap C /\
     drop (Z.to_nat (STACK_SIZE - dummy)) (coroutine.stack C')
     = drop (Z.to_nat (STACK_SIZE - dummy)) (coroutine.stack C)) /\
    coroutine.cap C <= coroutine.cap C' /\
    Z.of_nat (length (coroutine.stack C')) = coroutine.cap C' /\
    coroutine.status C' = COROUTINE_SUSPEND /\
    schedule.running S' = -1.
Proof.
  intros (_ & Hrun & Hblocks) Hpos Ha Hd.
  destruct Hrun as [Hnone|(_ & C & Hslot & _)]; [lia|].
  destruct (Hblocks _ _ Hslot) as (Hlen & _).
  destruct (length_saved (schedule.stack S) dummy C Hd Hlen)
    as [Hlen' Hcap'].
  exists C, (yielded (schedule.running S) dummy C S).
  eexists. split; [exact Hslot|]. split.
  { apply coroutine_yield_ok; assumption. }
  split.
  { eapply slot_yielded_eq. exact Hslot. }
  pose proof (length_stack_bytes (schedule.stack S) dummy
                (STACK_SIZE - dummy)) as Hn.
  split.
  { intros k Hk. simpl. unfold block_write.
    rewrite lookup_app_l by (rewrite Hn; lia).
    rewrite stack_bytes_lookup by lia.
    do 2 f_equal. lia. }
  split; [reflexivity|]. split.
  { intros Hlt. simpl.
    destruct (Z.ltb_spec (coroutine.cap C) (STACK_SIZE - dummy)); [|lia].
    reflexivity. }
  split.
  { intros Hge. simpl.
    destruct (Z.ltb_spec (coroutine.cap C) (STACK_SIZE - dummy)); [lia|].
    split; [reflexivity|].
    rewrite <- Hn. apply drop_block_write. }
  split.
  { change (coroutine.cap C <= coroutine.cap
              (saved (schedule.stack S) dummy C)).
    rewrite Hcap'. lia. }
  split; [exact Hlen'|]. split; reflexivity.
Qed.

Lemma demo_running_ok : sched_ok demo_running.
Proof.
  apply reachable_ok.
  apply (runs_reachable (demo_calls ++ [call_resume 0]) zeros).
  vm_compute. reflexivity.
Qed.

Lemma coroutine_yield_saves_witness :
  schedule.stack demo_running 1048573 = x00 /\
  schedule.stack demo_running 1048574 = "b"%byte /\
  schedule.stack demo_running 1048575 = "a"%byte /\
  exists C S' C',
    slot demo_running 0 = Some (Some C) /\
    coroutine_yield 1048572 1048573 demo_running = Switched to_main S' /\
    slot S' 0 = Some (Some C') /\
    coroutine.stack C' !! 0%nat = Some x00 /\
    coroutine.stack C' !! 1%nat = Some "b"%byte /\
    coroutine.stack C' !! 2%nat = Some "a"%byte /\
    coroutine.size C' = 3 /\
    coroutine.cap C' = coroutine.cap C.
Proof.
  assert (schedule.stack demo_running 1048573 = x00) as H0
    by (vm_compute; reflexivity).
  assert (schedule.stack demo_running 1048574 = "b"%byte) as H1
    by (vm_compute; reflexivity).
  assert (schedule.stack demo_running 1048575 = "a"%byte) as H2
    by (vm_compute; reflexivity).
  split; [exact H0|]. split; [exact H1|]. split; [exact H2|].
  destruct (coroutine_yield_saves 1048572 1048573 demo_running)
    as (C & S' & C' & HC & Hy & HC' & Hbytes & Hsize & _ & Hkeep & _).
  - exact demo_running_ok.
  - vm_compute. discriminate.
  - reflexivity.
  - between.
  - exists C, S', C'. split; [exact HC|]. split; [exact Hy|].
    split; [exact HC'|].
    split; [rewrite <- H0; apply (Hbytes 0); between|].
    split; [rewrite <- H1; apply (Hbytes 1); between|].
    split; [rewrite <- H2; apply (Hbytes 2); between|].
    split; [exact Hsize|].
    apply Hkeep.
    change (slot demo_running (schedule.running demo_running))
      with (Some (Some (set_status COROUTINE_RUNNING demo_co))) in HC.
    injection HC as <-. vm_compute. discriminate.
Defined.

(** ** Lifecycle *)

Lemma coroutine_status_slot id S C :
  0 <= id < schedule.cap S -> slot S id = Some (Some C) ->
  coroutine_status id S = Returned (coroutine.status C) S.
Proof.
  intros Hid Hslot. unfold coroutine_status. rewrite Hslot.
  destruct (Z.leb_spec 0 id); [|lia].
  destruct (Z.ltb_spec id (schedule.cap S)); [|lia]. reflexivity.
Qed.

Lemma coroutine_status_empty id S :
  0 <= id < schedule.cap S -> slot S id = Some None ->
  coroutine_status id S = Returned COROUTINE_DEAD S.
Proof.
  intros Hid Hslot. unfold coroutine_status. rewrite Hslot.
  destruct (Z.leb_spec 0 id); [|lia].
  destruct (Z.ltb_spec id (schedule.cap S)); [|lia]. reflexivity.
Qed.

(** C5. On a well-formed scheduler: an id that register returns reads
    Ready, and register does return while the table is not full or
    twice its capacity is still an [int]; resume of a Ready coroutine
    enters [mainfunc] with that coroutine reading Running and its id the
    running id; after a yield of the running coroutine it reads
    Suspended; and when the entry function of the running coroutine
    returns, [mainfunc] frees the private block and the object of that
    coroutine, these two and nothing else, empties its slot, so that it
    reads Dead, takes one off the count and sets the running id to
    [-1]. *)
Theorem lifecycle_status S :
  sched_ok S ->
  (forall func ud id S',
     coroutine_new func ud S = Returned id S' ->
     coroutine_status id S' = Returned COROUTINE_READY S') /\
  (forall func ud,
     schedule.nco S < schedule.cap S \/ schedule.cap S * 2 <= INT_MAX ->
     exists id S', coroutine_new func ud S = Returned id S') /\
  (forall id C,
     schedule.running S = -1 ->
     slot S id = Some (Some C) ->
     coroutine.status C = COROUTINE_READY ->
     exists S',
       coroutine_resume id S = Switched (to_coroutine ctx_mainfunc) S' /\
       coroutine_status id S' = Returned COROUTINE_RUNNING S' /\
       coroutine_running S' = Returned id S') /\
  (forall addrC dummy,
     0 <= schedule.running S ->
     0 < addrC -> 0 <= dummy <= STACK_SIZE ->
     exists S',
       coroutine_yield addrC dummy S = Switched to_main S' /\
       coroutine_status (schedule.running S) S'
       = Returned COROUTINE_SUSPEND S') /\
  (0 <= schedule.running S ->
   exists C S',
     slot S (schedule.running S) = Some (Some C) /\
     mainfunc_return (schedule.running S) S = Returned tt S' /\
     mainfunc_frees (schedule.running S) S
     = [free_stack (schedule.running S) (coroutine.stack C);
        free_coroutine (schedule.running S)] /\
     slot S' (schedule.running S) = Some None /\
     coroutine_status (schedule.running S) S'
     = Returned COROUTINE_DEAD S' /\
     schedule.nco S' = schedule.nco S - 1 /\
     schedule.running S' = -1).
Proof.
  intros (Htable & Hrun & Hblocks). pose proof Htable as (Hlen & Hcap & _).
  split; [|split; [|split; [|split]]].
  - intros func ud id S' Hnew.
    destruct (coroutine_new_ok func ud S Htable)
      as (id0 & S0 & Hnew0 & _ & Hid & Hslot).
    rewrite Hnew in Hnew0. injection Hnew0 as <- <-.
    apply (coroutine_status_slot id S' _ Hid Hslot).
  - intros func ud _.
    destruct (coroutine_new_ok func ud S Htable) as (id & S' & Hnew & _).
    eauto.
  - intros id C Hnone Hslot Hst.
    pose proof (slot_range _ _ _ Hslot) as Hid.
    exists (resumed_ready id S). split.
    { eapply coroutine_resume_ready; try eassumption. lia. }
    split; [|reflexivity].
    apply (coroutine_status_slot id (resumed_ready id S)
             (set_status COROUTINE_RUNNING (set_ctx ctx_mainfunc C))).
    + simpl. lia.
    + apply slot_resumed_ready_eq. exact Hslot.
  - intros addrC dummy Hpos Ha Hd.
    destruct Hrun as [Hnone|(Hid & C & Hslot & _)]; [lia|].
    destruct (Hblocks _ _ Hslot) as (Hblen & _).
    exists (yielded (schedule.running S) dummy C S). split.
    { apply coroutine_yield_ok; assumption. }
    apply (coroutine_status_slot (schedule.running S)
             (yielded (schedule.running S) dummy C S)
             (set_ctx ctx_in_yield
                (set_status COROUTINE_SUSPEND
                   (saved (schedule.stack S) dummy C)))).
    + simpl. lia.
    + eapply slot_yielded_eq. exact Hslot.
  - intros Hpos.
    destruct Hrun as [Hnone|(Hid & C & Hslot & _)]; [lia|].
    exists C, (finished (schedule.running S) S).
    assert (slot (finished (schedule.running S) S) (schedule.running S)
            = Some None) as Hgone
      by (eapply slot_finished_eq; exact Hslot).
    split; [exact Hslot|]. split.
    { unfold mainfunc_return. rewrite Hslot. reflexivity. }
    split.
    { unfold mainfunc_frees. rewrite Hslot. reflexivity. }
    split; [exact Hgone|]. split.
    { apply coroutine_status_empty; [simpl; lia|exact Hgone]. }
    split; reflexivity.
Qed.

Lemma lifecycle_status_witness :
  (exists id S',
     coroutine_new 300 9 demo = Returned id S' /\
     coroutine_status id S' = Returned COROUTINE_READY S') /\
  (exists S',
     coroutine_resume 1 demo = Switched (to_coroutine ctx_mainfunc) S' /\
     coroutine_status 1 S' = Returned COROUTINE_RUNNING S' /\
     coroutine_running S' = Returned 1 S') /\
  (exists S',
     coroutine_yield 1048572 1048573 demo_running = Switched to_main S' /\
     coroutine_status 0 S' = Returned COROUTINE_SUSPEND S') /\
  (exists S',
     mainfunc_return 0 demo_running = Returned tt S' /\
     mainfunc_frees 0 demo_running
     = [free_stack 0 ["c"; x00; x00; x00; "b"; "a"]%byte;
        free_coroutine 0] /\
     coroutine_status 0 S' = Returned COROUTINE_DEAD S' /\
     schedule.nco S' = 1 /\ schedule.running S' = -1).
Proof.
  destruct (lifecycle_status demo demo_ok)
    as (Hready & Hnew & Hres & _ & _).
  destruct (lifecycle_status demo_running demo_running_ok)
    as (_ & _ & _ & Hyield & Hret).
  split.
  { destruct (Hnew 300 9) as (id & S' & HS').
    - left. vm_compute. reflexivity.
    - exists id, S'. split; [exact HS'|]. exact (Hready 300 9 id S' HS'). }
  split.
  { apply (Hres 1 (_co_new 200 8)); vm_compute; reflexivity. }
  split.
  { apply (Hyield 1048572 1048573);
      [vm_compute; discriminate|reflexivity|between]. }
  destruct Hret as (C & S' & HC & Hm & Hfree & _ & Hst & Hnco & Hrun).
  { vm_compute. discriminate. }
  change (slot demo_running (schedule.running demo_running))
    with (Some (Some (set_status COROUTINE_RUNNING demo_co))) in HC.
  injection HC as <-.
  exists S'. split; [exact Hm|]. split; [exact Hfree|].
  split; [exact Hst|]. split; [exact Hnco|exact Hrun].
Defined.

(** ** The running id *)

(** C8. The running id is [-1] or a valid index of a slot that holds a
    coroutine whose state is Running: this holds of the scheduler just
    opened, every call or step that returns or switches (register,
    resume, yield, the return of an entry function into [mainfunc], the
    two readers, a store on the stack) keeps it, and so it holds of every
    scheduler an execution reaches. *)
Theorem running_id_invariant :
  (forall garbage, running_ok (coroutine_open garbage)) /\
  (forall e S S', running_ok S -> exec e S = Some S' -> running_ok S') /\
  (forall S, reachable S -> running_ok S).
Proof.
  split; [|split].
  - intros garbage. left. reflexivity.
  - intros e S S' Hok He. eapply running_ok_step; [exact Hok|].
    apply exec_step. exact He.
  - intros S Hreach. apply reachable_ok in Hreach as (_ & Hok & _).
    exact Hok.
Qed.

Lemma demo_running_reachable : reachable demo_running.
Proof.
  apply (runs_reachable (demo_calls ++ [call_resume 0]) zeros).
  vm_compute. reflexivity.
Qed.

Lemma running_id_invariant_witness :
  running_ok demo /\ running_ok demo_running /\
  schedule.running demo = -1 /\ schedule.running demo_running = 0.
Proof.
  destruct running_id_invariant as (_ & _ & H).
  split; [exact (H demo demo_reachable)|].
  split; [exact (H demo_running demo_running_reachable)|].
  split; vm_compute; reflexivity.
Defined.

(** ** The round trip of the stack *)

(** While a coroutine is suspended, no call but its own resume touches
    it. *)
Lemma suspended_kept id C S e S' :
  coroutine.status C = COROUTINE_SUSPEND ->
  slot S id = Some (Some C) -> id < schedule.cap S ->
  running_ok S -> step S e S' -> e <> call_resume id ->
  slot S' id = Some (Some C) /\ id < schedule.cap S'.
Proof.
  intros Hsusp Hslot Hcap Hok Hstep Hne.
  pose proof (slot_range _ _ _ Hslot) as Hid.
  assert (0 <= schedule.running S -> schedule.running S <> id) as Hrun.
  { intros Hpos Heq.
    destruct Hok as [Hnone|(_ & Cr & HCr & Hst)]; [lia|].
    rewrite Heq, Hslot in HCr. injection HCr as <-.
    rewrite Hsusp in Hst. discriminate. }
  destruct Hstep as [func ud Hfull|func ud id0 Hfree Hslot0|id0 _ _ _
    |id0 C0 Hnone Hid0 Hslot0 Hst0|id0 C0 Hnone Hid0 Hslot0 Hst0 Hsz Hlen
    |addrC dummy C0 Hpos Ha Hd Hslot0|id0| |C0 Hslot0|off b Hpos Hoff];
    try (split; assumption).
  - split; [apply slot_grown_old; assumption|simpl; lia].
  - pose proof (slot_range _ _ _ Hslot0).
    split; [|exact Hcap].
    rewrite slot_registered_ne; [exact Hslot|lia|congruence].
  - split; [|exact Hcap].
    rewrite slot_resumed_ready_ne; [exact Hslot|lia|congruence].
  - split; [|exact Hcap].
    rewrite slot_resumed_suspended_ne; [exact Hslot|lia|congruence].
  - split; [|exact Hcap].
    rewrite slot_yielded_ne; [exact Hslot|lia|].
    intros Heq. apply (Hrun Hpos). congruence.
  - pose proof (slot_range _ _ _ Hslot0).
    split; [|exact Hcap].
    rewrite slot_finished_ne; [exact Hslot|lia|].
    intros Heq. apply Hrun; [lia|congruence].
Qed.

Lemma suspended_kept_execs id C es S S' :
  coroutine.status C = COROUTINE_SUSPEND ->
  slot S id = Some (Some C) -> id < schedule.cap S ->
  running_ok S -> execs es S = Some S' ->
  Forall (fun e => e <> call_resume id) es ->
  slot S' id = Some (Some C) /\ id < schedule.cap S'.
Proof.
  intros Hsusp. revert S.
  induction es as [|e es IH]; intros S Hslot Hcap Hok Hex Hes; simpl in Hex.
  - injection Hex as <-. auto.
  - destruct (exec e S) as [S1|] eqn:He; [|discriminate].
    apply exec_step in He. inversion Hes as [|? ? Hne Hes']; subst.
    destruct (suspended_kept id C S e S1) as [Hslot1 Hcap1]; try assumption.
    apply (IH S1); try assumption.
    eapply running_ok_step; eassumption.
Qed.

Lemma running_ok_execs es S S' :
  running_ok S -> execs es S = Some S' -> running_ok S'.
Proof.
  revert S. induction es as [|e es IH]; intros S Hok; simpl.
  - intros [= <-]. exact Hok.
  - destruct (exec e S) as [S1|] eqn:He; [|discriminate].
    apply IH. eapply running_ok_step; [exact Hok|].
    apply exec_step. exact He.
Qed.

(** C1. Take any execution, from a scheduler that satisfies the
    invariant of the running id, in which the running coroutine yields
    with its [n = STACK_SIZE - dummy] live bytes at the top of the stack,
    then anything happens but a resume of that coroutine (other
    coroutines are registered, run, store on the stack, yield, finish),
    and then the main context is back in control.  Then the coroutine's
    private block is as the yield left it: its first [n] bytes are the
    [n] bytes the stack held from [dummy] to the top; the resume of the
    coroutine switches into the context saved by the yield; and after it
    every byte of the stack from [dummy] to the top is the byte that was
    there before the yield.  The execution before the yield is
    arbitrary, so this holds of every yield and its matching resume,
    however many came before. *)
Theorem stack_round_trip S es0 S0 addrC dummy S1 es S2 :
  running_ok S ->
  execs es0 S = Some S0 ->
  coroutine_yield addrC dummy S0 = Switched to_main S1 ->
  Forall (fun e => e <> call_resume (schedule.running S0)) es ->
  execs es S1 = Some S2 ->
  schedule.running S2 = -1 ->
  exists C S3,
    slot S1 (schedule.running S0) = Some (Some C) /\
    slot S2 (schedule.running S0) = Some (Some C) /\
    coroutine.size C = STACK_SIZE - dummy /\
    take (Z.to_nat (STACK_SIZE - dummy)) (coroutine.stack C)
    = stack_bytes (schedule.stack S0) dummy (STACK_SIZE - dummy) /\
    coroutine_resume (schedule.running S0) S2
    = Switched (to_coroutine ctx_in_yield) S3 /\
    schedule.running S3 = schedule.running S0 /\
    stack_bytes (schedule.stack S3) dummy (STACK_SIZE - dummy)
    = stack_bytes (schedule.stack S0) dummy (STACK_SIZE - dummy) /\
    (forall k, dummy <= k < STACK_SIZE ->
       schedule.stack S3 k = schedule.stack S0 k).
Proof.
  intros Hok Hex0 Hyield Hes Hex Hmain.
  pose proof (running_ok_execs _ _ _ Hok Hex0) as Hok0.
  assert (after (coroutine_yield addrC dummy S0) = Some S1) as Hafter
    by (rewrite Hyield; reflexivity).
  pose proof Hafter as Hstep1. apply (exec_step (call_yield addrC dummy))
    in Hstep1.
  apply coroutine_yield_after in Hafter
    as (Hpos & Ha & Hd & C0 & Hslot0 & _ & HS1).
  set (id := schedule.running S0) in *.
  set (n := STACK_SIZE - dummy) in *.
  set (C := set_ctx ctx_in_yield
              (set_status COROUTINE_SUSPEND
                 (saved (schedule.stack S0) dummy C0))).
  assert (slot S1 id = Some (Some C)) as Hslot1.
  { rewrite HS1. eapply slot_yielded_eq. exact Hslot0. }
  assert (id < schedule.cap S1) as Hcap1.
  { rewrite HS1. simpl.
    destruct Hok0 as [Hnone|(Hid & _)]; [fold id in Hnone|fold id in Hid];
      lia. }
  pose proof (running_ok_step _ _ _ Hok0 Hstep1) as Hok1.
  destruct (suspended_kept_execs id C es S1 S2) as [Hslot2 Hcap2];
    try assumption; [reflexivity|].
  pose proof (slot_range _ _ _ Hslot2) as Hid2.
  pose proof (length_stack_bytes (schedule.stack S0) dummy n) as Hlen.
  assert (coroutine.stack C
          = block_write
              (coroutine.stack
                 (if coroutine.cap C0 <? n then regrow n C0 else C0))
              (stack_bytes (schedule.stack S0) dummy n)) as Hstack
    by reflexivity.
  assert (forall k, dummy <= k < STACK_SIZE ->
            schedule.stack (resumed_suspended id C S2) k
            = schedule.stack S0 k) as Hbytes.
  { intros k Hk. simpl. fold n. rewrite stack_write_inside by lia.
    rewrite nth_block_write by lia. f_equal. lia. }
  exists C, (resumed_suspended id C S2).
  split; [exact Hslot1|]. split; [exact Hslot2|].
  split; [reflexivity|]. split.
  { rewrite Hstack. rewrite <- Hlen at 1. apply take_block_write. }
  split.
  { apply (coroutine_resume_suspended id S2 C); try assumption.
    - lia.
    - reflexivity.
    - change (coroutine.size C) with n. lia.
    - change (coroutine.size C) with n. rewrite Hstack.
      unfold block_write. rewrite length_app, Hlen. lia. }
  split; [reflexivity|]. split; [|exact Hbytes].
  apply list_eq. intros i.
  destruct (decide (i < Z.to_nat n)%nat) as [Hi|Hi].
  - rewrite !stack_bytes_lookup by exact Hi. f_equal. apply Hbytes. lia.
  - rewrite !(proj2 (lookup_ge_None _ _)); [reflexivity| |];
      rewrite length_stack_bytes; lia.
Qed.

Lemma runs_execs es S :
  runs es S = true -> execs es S = Some (default S (execs es S)).
Proof.
  unfold runs. destruct (execs es S); [reflexivity|discriminate].
Qed.

Lemma stack_round_trip_witness :
  schedule.stack demo_away 1048575 = "z"%byte /\
  exists S3,
    coroutine_resume 0 demo_away
    = Switched (to_coroutine ctx_in_yield) S3 /\
    schedule.stack S3 1048575 = "a"%byte /\
    schedule.stack S3 1048571 = x00 /\
    schedule.stack S3 1048570 = "c"%byte.
Proof.
  split; [vm_compute; reflexivity|].
  destruct (stack_round_trip (coroutine_open zeros) (take 6 demo_calls)
              demo_before 1048572 1048570 demo demo_between demo_away)
    as (C & S3 & _ & _ & _ & _ & Hres & _ & _ & Hbytes).
  - left. reflexivity.
  - apply (runs_execs (take 6 demo_calls) (coroutine_open zeros)).
    vm_compute. reflexivity.
  - vm_compute. reflexivity.
  - unfold demo_between.
    repeat (constructor; [intros H; vm_compute in H; discriminate|]).
    constructor.
  - apply (runs_execs demo_between demo). vm_compute. reflexivity.
  - vm_compute. reflexivity.
  - exists S3. split; [exact Hres|].
    rewrite !Hbytes by between.
    repeat split; vm_compute; reflexivity.
Defined.

(** * Further properties of the code *)

(** ** The scheduler's address through [makecontext] *)

Lemma uintptr_t_small z : 0 <= z < 2 ^ 64 -> uintptr_t z = z.
Proof. intros Hz. unfold uintptr_t. apply Z.mod_small. exact Hz. Qed.

Lemma uint32_t_range z : 0 <= uint32_t z < 2 ^ 32.
Proof. unfold uint32_t. apply Z.mod_pos_bound. lia. Qed.

(** The address that [coroutine_resume] splits into two 32-bit halves
    for [makecontext] is the address that [mainfunc] puts together again
    from them. *)
Theorem mainfunc_ptr_round_trip ptr :
  0 <= ptr < 2 ^ 64 ->
  mainfunc_ptr (resume_low32 ptr) (resume_hi32 ptr) = ptr.
Proof.
  intros Hptr. unfold mainfunc_ptr, resume_low32, resume_hi32.
  pose proof (uint32_t_range ptr) as Hlo.
  pose proof (uint32_t_range (Z.shiftr ptr 32)) as Hhi.
  rewrite (uintptr_t_small (uint32_t ptr)) by lia.
  rewrite (uintptr_t_small (uint32_t (Z.shiftr ptr 32))) by lia.
  rewrite uintptr_t_small.
  2:{ rewrite Z.shiftl_mul_pow2 by lia. lia. }
  unfold uint32_t. apply Z.bits_inj'. intros n Hn.
  rewrite Z.lor_spec.
  destruct (Z.lt_ge_cases n 32) as [Hlt|Hge].
  - rewrite Z.mod_pow2_bits_low by lia.
    rewrite Z.shiftl_spec_low by lia. apply orb_false_r.
  - rewrite Z.mod_pow2_bits_high by lia.
    rewrite Z.shiftl_spec by lia. simpl.
    destruct (Z.lt_ge_cases n 64) as [Hlt|Hge64].
    + rewrite Z.mod_pow2_bits_low by lia.
      rewrite Z.shiftr_spec by lia. f_equal. lia.
    + rewrite Z.mod_pow2_bits_high by lia.
      rewrite <- (Z.mod_small ptr (2 ^ 64)) by lia.
      rewrite Z.mod_pow2_bits_high by lia. reflexivity.
Qed.

Lemma mainfunc_ptr_round_trip_witness :
  resume_low32 140737488351488 = 4294963456 /\
  resume_hi32 140737488351488 = 32767 /\
  mainfunc_ptr (resume_low32 140737488351488)
    (resume_hi32 140737488351488) = 140737488351488.
Proof.
  split; [reflexivity|]. split; [reflexivity|].
  apply (mainfunc_ptr_round_trip 140737488351488). lia.
Defined.

(** ** States of the coroutines in the table *)

(** What a step does to a slot: it leaves it, empties it, or puts there
    a new Ready coroutine, or the old one with another status, context
    and saved stack. *)
Lemma step_slot S e S' id C' :
  step S e S' -> slot S' id = Some (Some C') ->
  slot S id = Some (Some C') \/
  (exists func ud, C' = _co_new func ud) \/
  (exists C, slot S id = Some (Some C) /\
     schedule.running S' = id /\
     coroutine.status C' = COROUTINE_RUNNING /\
     schedule.running S = -1) \/
  (exists C, slot S id = Some (Some C) /\
     schedule.running S = id /\
     coroutine.status C' = COROUTINE_SUSPEND).
Proof.
  intros Hstep HC'.
  destruct Hstep as [func ud Hfull|func ud id0 Hfree Hslot0|id0 _ _ _
    |id0 C0 Hnone Hid0 Hslot0 Hst0|id0 C0 Hnone Hid0 Hslot0 Hst0 Hsz Hlen
    |addrC dummy C0 Hpos Ha Hd Hslot0|id0| |C0 Hslot0|off b Hpos Hoff];
    try (left; exact HC').
  - apply slot_grown_inv in HC' as [->|HC']; [right; left; eauto|].
    left. exact HC'.
  - pose proof (slot_range _ _ _ Hslot0).
    destruct (Z.eq_dec id id0) as [->|Hne].
    + rewrite slot_registered_eq in HC' by exact Hslot0.
      injection HC' as <-. right. left. eauto.
    + rewrite slot_registered_ne in HC' by lia. left. exact HC'.
  - destruct (Z.eq_dec id id0) as [->|Hne].
    + erewrite slot_resumed_ready_eq in HC' by exact Hslot0.
      injection HC' as <-. right. right. left. exists C0. auto.
    + rewrite slot_resumed_ready_ne in HC' by lia. left. exact HC'.
  - destruct (Z.eq_dec id id0) as [->|Hne].
    + erewrite slot_resumed_suspended_eq in HC' by exact Hslot0.
      injection HC' as <-. right. right. left. exists C0. auto.
    + rewrite slot_resumed_suspended_ne in HC' by lia. left. exact HC'.
  - destruct (Z.eq_dec id (schedule.running S)) as [->|Hne].
    + erewrite slot_yielded_eq in HC' by exact Hslot0.
      injection HC' as <-. right. right. right. exists C0. auto.
    + rewrite slot_yielded_ne in HC' by lia. left. exact HC'.
  - pose proof (slot_range _ _ _ Hslot0).
    destruct (Z.eq_dec id (schedule.running S)) as [->|Hne].
    + erewrite slot_finished_eq in HC' by exact Hslot0. discriminate.
    + rewrite slot_finished_ne in HC' by lia. left. exact HC'.
Qed.

(** The running id after a step: unchanged, or set by a resume that
    found it [-1], or reset to [-1]. *)
Lemma step_running_id S e S' :
  step S e S' ->
  schedule.running S' = schedule.running S \/
  schedule.running S = -1 \/
  schedule.running S' = -1.
Proof.
  intros Hstep. destruct Hstep; simpl; auto.
Qed.

Lemma status_ok_step S e S' : status_ok S -> step S e S' -> status_ok S'.
Proof.
  intros Hok Hstep id C' HC'.
  destruct (step_slot _ _ _ _ _ Hstep HC')
    as [H|[(func & ud & ->)|[(C & _ & _ & Hst & _)|(C & _ & _ & Hst)]]];
    eauto.
Qed.

Lemma one_running_step S e S' :
  one_running S -> step S e S' -> one_running S'.
Proof.
  intros Hok Hstep id C' HC' Hrun'.
  destruct (step_slot _ _ _ _ _ Hstep HC')
    as [H|[(func & ud & ->)|[(C & _ & Hid & _)|(C & _ & _ & Hst)]]].
  - pose proof (Hok _ _ H Hrun') as Hid.
    pose proof (slot_range _ _ _ H) as Hr.
    destruct (step_running_id _ _ _ Hstep) as [Heq|[Hnone|Hnone]];
      [congruence|lia|].
    (* the step reset the running id: it was a yield or a finish of the
       coroutine of that id, whose slot is not as before *)
    exfalso. clear Hok.
    destruct Hstep as [func ud Hfull|func ud id0 Hfree Hslot0|id0 _ _ _
      |id0 C0 Hn Hid0 Hslot0 Hst0|id0 C0 Hn Hid0 Hslot0 Hst0 Hsz Hlen
      |addrC dummy C0 Hpos Ha Hd Hslot0|id0| |C0 Hslot0|off b Hpos Hoff];
      simpl in Hnone; try lia.
    + subst id. erewrite slot_yielded_eq in HC' by exact Hslot0.
      injection HC' as <-. discriminate Hrun'.
    + subst id. erewrite slot_finished_eq in HC' by exact Hslot0.
      discriminate.
  - discriminate Hrun'.
  - exact Hid.
  - rewrite Hst in Hrun'. discriminate.
Qed.

Lemma cap_ok_step S e S' : cap_ok S -> step S e S' -> cap_ok S'.
Proof.
  intros [k Hk] Hstep. destruct Hstep; try (exists k; exact Hk).
  exists (Datatypes.S k). simpl schedule.cap. rewrite Hk.
  rewrite Nat2Z.inj_succ, Z.pow_succ_r by lia. lia.
Qed.

Lemma slot_open garbage id :
  slot (coroutine_open garbage) id = Some None \/
  slot (coroutine_open garbage) id = None.
Proof.
  unfold slot. destruct (id <? 0); [right; reflexivity|].
  unfold coroutine_open, schedule.co.
  destruct (replicate (Z.to_nat DEFAULT_COROUTINE) None !! Z.to_nat id)
    as [c|] eqn:H; [|right; reflexivity].
  apply lookup_replicate in H as [-> _]. left. reflexivity.
Qed.

(** Any property that holds of the scheduler just opened and that every
    step keeps holds of every scheduler an execution reaches. *)
Lemma reachable_ind (P : schedule.t -> Prop) :
  (forall garbage, P (coroutine_open garbage)) ->
  (forall S e S', P S -> step S e S' -> P S') ->
  forall S, reachable S -> P S.
Proof.
  intros Hopen Hstep S (garbage & es & Hex).
  revert Hex. generalize (Hopen garbage).
  generalize (coroutine_open garbage). clear garbage.
  induction es as [|e es IH]; intros S0 HP; simpl.
  - intros [= <-]. exact HP.
  - destruct (exec e S0) as [S1|] eqn:He; [|discriminate].
    apply IH. eapply Hstep; [exact HP|]. apply exec_step. exact He.
Qed.

Lemma reachable_status_ok S : reachable S -> status_ok S.
Proof.
  apply reachable_ind.
  - intros garbage id C H. destruct (slot_open garbage id); congruence.
  - apply status_ok_step.
Qed.

Lemma reachable_one_running S : reachable S -> one_running S.
Proof.
  apply reachable_ind.
  - intros garbage id C H. destruct (slot_open garbage id); congruence.
  - apply one_running_step.
Qed.

Lemma reachable_cap_ok S : reachable S -> cap_ok S.
Proof.
  apply reachable_ind.
  - intros garbage. exists 0%nat. reflexivity.
  - apply cap_ok_step.
Qed.

(** In every scheduler an execution reaches, [coroutine_status] of an id
    in range returns, the value is one of the four states, and it is
    Dead exactly when the slot is empty: no coroutine in the table is
    ever marked Dead. *)
Theorem coroutine_status_dead_iff_empty S id :
  reachable S -> 0 <= id < schedule.cap S ->
  exists v,
    coroutine_status id S = Returned v S /\
    (v = COROUTINE_DEAD \/ v = COROUTINE_READY \/
     v = COROUTINE_RUNNING \/ v = COROUTINE_SUSPEND) /\
    (v = COROUTINE_DEAD <-> slot S id = Some None).
Proof.
  intros Hreach Hid.
  pose proof (reachable_ok S Hreach) as ((Hlen & _) & _).
  pose proof (reachable_status_ok S Hreach) as Hst.
  destruct (slot_in_range S id) as [[C|] Hslot]; [lia| |].
  - exists (coroutine.status C).
    split; [apply coroutine_status_slot; assumption|].
    destruct (Hst _ _ Hslot) as [H|[H|H]]; rewrite H;
      (split; [auto|]); (split; [discriminate|congruence]).
  - exists COROUTINE_DEAD.
    split; [apply coroutine_status_empty; assumption|].
    split; [auto|]. split; auto.
Qed.

Lemma coroutine_status_dead_iff_empty_witness :
  exists v,
    coroutine_status 0 demo = Returned v demo /\
    (v = COROUTINE_DEAD \/ v = COROUTINE_READY \/
     v = COROUTINE_RUNNING \/ v = COROUTINE_SUSPEND) /\
    (v = COROUTINE_DEAD <-> slot demo 0 = Some None).
Proof.
  apply (coroutine_status_dead_iff_empty demo 0).
  - exact demo_reachable.
  - between.
Defined.

(** In every scheduler an execution reaches, [coroutine_status] reads
    Running for the id that [coroutine_running] returns and for no
    other: at most one coroutine is Running, and none while the main
    context runs. *)
Theorem coroutine_status_running_iff S id :
  reachable S ->
  coroutine_status id S = Returned COROUTINE_RUNNING S <->
  coroutine_running S = Returned id S /\ 0 <= id.
Proof.
  intros Hreach.
  pose proof (reachable_ok S Hreach) as ((Hlen & _) & Hrun & _).
  pose proof (reachable_one_running S Hreach) as Hone.
  unfold coroutine_running. split.
  - intros Hst. unfold coroutine_status in Hst.
    destruct (Z.leb_spec 0 id) as [Hlo|Hlo]; simpl in Hst;
      [|discriminate].
    destruct (Z.ltb_spec id (schedule.cap S)) as [Hhi|Hhi];
      simpl in Hst; [|discriminate].
    destruct (slot S id) as [[C|]|] eqn:Hslot; try discriminate.
    injection Hst as Hst.
    rewrite (Hone _ _ Hslot Hst). auto.
  - intros [[= Hid] Hpos].
    destruct Hrun as [Hnone|(Hr & C & Hslot & Hst)]; [lia|].
    rewrite Hid in *. rewrite <- Hst.
    apply coroutine_status_slot; assumption.
Qed.

Lemma coroutine_status_running_iff_witness :
  (coroutine_status 0 demo_running = Returned COROUTINE_RUNNING demo_running
   <-> coroutine_running demo_running = Returned 0 demo_running /\ 0 <= 0)
  /\
  (coroutine_status 1 demo_running = Returned COROUTINE_RUNNING demo_running
   <-> coroutine_running demo_running = Returned 1 demo_running /\ 0 <= 1).
Proof.
  split.
  - apply (coroutine_status_running_iff demo_running 0).
    exact demo_running_reachable.
  - apply (coroutine_status_running_iff demo_running 1).
    exact demo_running_reachable.
Defined.

(** In every scheduler an execution reaches, the table has [cap] slots,
    [nco] is the number of slots that hold a coroutine and so lies
    between 0 and [cap], and [cap] is 16 doubled some number of
    times. *)
Theorem table_accounting S :
  reachable S ->
  Z.of_nat (length (schedule.co S)) = schedule.cap S /\
  schedule.nco S = Z.of_nat (live (schedule.co S)) /\
  0 <= schedule.nco S <= schedule.cap S /\
  exists k : nat, schedule.cap S = 16 * 2 ^ Z.of_nat k.
Proof.
  intros Hreach.
  pose proof (reachable_ok S Hreach) as ((Hlen & Hcap & Hnco) & _).
  pose proof (live_le_length (schedule.co S)) as Hle.
  split; [exact Hlen|]. split; [exact Hnco|]. split; [lia|].
  apply (reachable_cap_ok S Hreach).
Qed.

Lemma table_accounting_witness :
  Z.of_nat (length (schedule.co demo)) = schedule.cap demo /\
  schedule.nco demo = Z.of_nat (live (schedule.co demo)) /\
  0 <= schedule.nco demo <= schedule.cap demo /\
  exists k : nat, schedule.cap demo = 16 * 2 ^ Z.of_nat k.
Proof. apply (table_accounting demo). exact demo_reachable. Defined.

(** ** Teardown *)

Lemma drop_cons_lookup {A : Type} (l : list A) n x l' :
  drop n l = x :: l' -> l !! n = Some x /\ drop (Datatypes.S n) l = l'.
Proof.
  intros H. split.
  - rewrite <- (Nat.add_0_r n), <- lookup_drop, H. reflexivity.
  - change (Datatypes.S n) with (1 + n)%nat.
    rewrite Nat.add_comm, <- drop_drop, H. reflexivity.
Qed.

(** The loop of [coroutine_close] over the rest [l] of the table from
    slot [i] on: it frees the block and the object of each coroutine
    there, once, and nothing else. *)
Lemma coroutine_close_loop_spec S l :
  forall i, 0 <= i ->
  drop (Z.to_nat i) (schedule.co S) = l ->
  exists rs,
    coroutine_close_loop (length l) i S = Some rs /\
    Z.of_nat (length rs) = 2 * Z.of_nat (live l) /\
    (forall id, free_coroutine id ∈ rs <->
       i <= id /\ exists C, slot S id = Some (Some C)) /\
    (forall id blk, free_stack id blk ∈ rs <->
       i <= id /\ exists C, slot S id = Some (Some C) /\
                            blk = coroutine.stack C) /\
    (free_table ∉ rs) /\ (free_schedule ∉ rs) /\
    NoDup rs.
Proof.
  induction l as [|x l IH]; intros i Hi Hdrop.
  - exists []. simpl. split; [reflexivity|]. split; [reflexivity|].
    assert (forall id c, i <= id -> slot S id = Some c -> False) as Hout.
    { intros id c Hle Hslot. apply slot_lookup in Hslot as [_ Hslot].
      apply lookup_lt_Some in Hslot.
      apply drop_nil_inv in Hdrop. lia. }
    split; [|split; [|split; [|split]]].
    + intros id. split; [intros H; apply elem_of_nil in H; contradiction|].
      intros (Hle & C & HC). exfalso. eapply Hout; eassumption.
    + intros id blk.
      split; [intros H; apply elem_of_nil in H; contradiction|].
      intros (Hle & C & HC & _). exfalso. eapply Hout; eassumption.
    + apply not_elem_of_nil.
    + apply not_elem_of_nil.
    + constructor.
  - apply drop_cons_lookup in Hdrop as [Hx Hdrop].
    assert (slot S i = Some x) as Hslot.
    { unfold slot. destruct (Z.ltb_spec i 0); [lia|exact Hx]. }
    destruct (IH (i + 1)) as (rs & Hloop & Hlen & Hco & Hst & Ht & Hs & Hnd).
    { lia. }
    { replace (Z.to_nat (i + 1)) with (Datatypes.S (Z.to_nat i)) by lia.
      exact Hdrop. }
    simpl length. simpl coroutine_close_loop. rewrite Hslot, Hloop.
    destruct x as [C|].
    + exists (_co_delete i C ++ rs). split; [reflexivity|].
      split.
      { simpl length. rewrite live_cons. simpl occupied. lia. }
      simpl. split; [|split; [|split; [|split]]].
      * intros id. rewrite !elem_of_cons, Hco. split.
        -- intros [H|[[= ->]|(Hle & HC)]]; [discriminate| |].
           ++ split; [lia|eauto].
           ++ split; [lia|exact HC].
        -- intros (Hle & C' & HC').
           destruct (Z.eq_dec id i) as [->|Hne]; [auto|].
           right. right. split; [lia|eauto].
      * intros id blk. rewrite !elem_of_cons, Hst. split.
        -- intros [[= -> ->]|[H|(Hle & HC)]]; [|discriminate|].
           ++ split; [lia|eauto].
           ++ split; [lia|exact HC].
        -- intros (Hle & C' & HC' & ->).
           destruct (Z.eq_dec id i) as [->|Hne].
           ++ left. congruence.
           ++ right. right. split; [lia|eauto].
      * rewrite !elem_of_cons. intros [H|[H|H]];
          [discriminate|discriminate|contradiction].
      * rewrite !elem_of_cons. intros [H|[H|H]];
          [discriminate|discriminate|contradiction].
      * apply list.NoDup_cons. split.
        -- rewrite elem_of_cons, Hst. intros [H|(Hle & _)];
             [discriminate|lia].
        -- apply list.NoDup_cons. split; [|exact Hnd].
           rewrite Hco. intros (Hle & _). lia.
    + exists rs. split; [reflexivity|]. split.
      { rewrite live_cons. simpl occupied. lia. }
      split; [|split; [|auto]].
      * intros id. rewrite Hco. split.
        -- intros (Hle & HC). split; [lia|exact HC].
        -- intros (Hle & C' & HC').
           destruct (Z.eq_dec id i) as [->|Hne]; [congruence|].
           split; [lia|eauto].
      * intros id blk. rewrite Hst. split.
        -- intros (Hle & HC). split; [lia|exact HC].
        -- intros (Hle & C' & HC' & ->).
           destruct (Z.eq_dec id i) as [->|Hne]; [congruence|].
           split; [lia|eauto].
Qed.

(** On a well-formed table [coroutine_close] frees something for a slot
    exactly when the slot holds a coroutine, and frees nothing twice;
    then it frees the table and the scheduler. *)
Lemma coroutine_close_spec S :
  table_ok S ->
  exists rs,
    coroutine_close S = Some (rs ++ [free_table; free_schedule]) /\
    Z.of_nat (length rs) = 2 * schedule.nco S /\
    (forall id, free_coroutine id ∈ rs <->
       exists C, slot S id = Some (Some C)) /\
    (forall id blk, free_stack id blk ∈ rs <->
       exists C, slot S id = Some (Some C) /\ blk = coroutine.stack C) /\
    NoDup (rs ++ [free_table; free_schedule]).
Proof.
  intros (Hlen & Hcap & Hnco).
  destruct (coroutine_close_loop_spec S (schedule.co S) 0)
    as (rs & Hloop & Hl & Hco & Hst & Ht & Hs & Hnd);
    [lia|reflexivity|].
  exists rs. unfold coroutine_close.
  replace (Z.to_nat (schedule.cap S)) with (length (schedule.co S)) by lia.
  rewrite Hloop. split; [reflexivity|]. split; [lia|].
  split; [|split].
  - intros id. rewrite Hco. split.
    + intros (_ & HC). exact HC.
    + intros (C & HC). pose proof (slot_range _ _ _ HC). split; [lia|eauto].
  - intros id blk. rewrite Hst. split.
    + intros (_ & HC). exact HC.
    + intros (C & HC & ->). pose proof (slot_range _ _ _ HC).
      split; [lia|eauto].
  - apply list.NoDup_app. split; [exact Hnd|]. split.
    + intros r Hr Hin. apply elem_of_cons in Hin as [->|Hin];
        [contradiction|].
      apply elem_of_cons in Hin as [->|Hin]; [contradiction|].
      apply elem_of_nil in Hin. contradiction.
    + apply list.NoDup_cons. split.
      * rewrite elem_of_cons. intros [H|H]; [discriminate|].
        apply elem_of_nil in H. contradiction.
      * apply list.NoDup_cons. split; [apply not_elem_of_nil|constructor].
Qed.

(** On every scheduler an execution reaches, [coroutine_close] reads
    inside the table, frees the private block and the object of every
    coroutine still in the table, whatever its state, each exactly once
    and in none of the empty slots, which makes two calls of [free] for
    each of the [nco] coroutines, and then frees the table and the
    scheduler: nothing is freed twice and no coroutine is left. *)
Theorem coroutine_close_frees_all S :
  reachable S ->
  exists rs,
    coroutine_close S = Some (rs ++ [free_table; free_schedule]) /\
    Z.of_nat (length rs) = 2 * schedule.nco S /\
    (forall id, free_coroutine id ∈ rs <->
       exists C, slot S id = Some (Some C)) /\
    (forall id blk, free_stack id blk ∈ rs <->
       exists C, slot S id = Some (Some C) /\ blk = coroutine.stack C) /\
    NoDup (rs ++ [free_table; free_schedule]).
Proof.
  intros Hreach. apply coroutine_close_spec.
  apply (reachable_ok S Hreach).
Qed.

Lemma coroutine_close_frees_all_witness :
  coroutine_close demo
  = Some ([free_stack 0 (coroutine.stack demo_co); free_coroutine 0;
           free_stack 1 []; free_coroutine 1]
          ++ [free_table; free_schedule]) /\
  exists rs,
    coroutine_close demo = Some (rs ++ [free_table; free_schedule]) /\
    Z.of_nat (length rs) = 2 * schedule.nco demo /\
    NoDup (rs ++ [free_table; free_schedule]).
Proof.
  split; [vm_compute; reflexivity|].
  destruct (coroutine_close_frees_all demo demo_reachable)
    as (rs & Hclose & Hlen & _ & _ & Hnd).
  exists rs. split; [exact Hclose|]. split; [exact Hlen|exact Hnd].
Defined.

(** When the entry function of the running coroutine returns, [mainfunc]
    frees the coroutine and empties its slot, so that a later
    [coroutine_close] does not free it again: over the two, an object is
    freed for a slot exactly when the slot held a coroutine, a block is
    freed for a slot exactly when it is the private block of the
    coroutine the slot held, and nothing is freed twice. *)
Theorem mainfunc_then_close_frees_once S :
  reachable S -> 0 <= schedule.running S ->
  exists S' rs,
    mainfunc_return (schedule.running S) S = Returned tt S' /\
    coroutine_close S' = Some (rs ++ [free_table; free_schedule]) /\
    NoDup (mainfunc_frees (schedule.running S) S
           ++ rs ++ [free_table; free_schedule]) /\
    (forall id,
       free_coroutine id ∈ mainfunc_frees (schedule.running S) S ++ rs
       <-> exists C, slot S id = Some (Some C)) /\
    (forall id blk,
       free_stack id blk ∈ mainfunc_frees (schedule.running S) S ++ rs
       <-> exists C, slot S id = Some (Some C) /\
                     blk = coroutine.stack C).
Proof.
  intros Hreach Hpos.
  pose proof (reachable_ok S Hreach) as (Htable & Hrun & _).
  destruct Hrun as [Hnone|(Hid & C & Hslot & _)]; [lia|].
  set (id := schedule.running S) in *.
  assert (step S entry_returns (finished id S)) as Hstep
    by (apply (step_return S C); exact Hslot).
  pose proof (table_ok_step _ _ _ Htable Hstep) as Htable'.
  destruct (coroutine_close_spec _ Htable')
    as (rs & Hclose & _ & Hco & Hst & Hnd).
  assert (slot (finished id S) id = Some None) as Hgone
    by (eapply slot_finished_eq; exact Hslot).
  exists (finished id S), rs.
  split; [unfold mainfunc_return; rewrite Hslot; reflexivity|].
  split; [exact Hclose|].
  unfold mainfunc_frees. rewrite Hslot. simpl. split; [|split].
  - apply list.NoDup_cons. split.
    + rewrite elem_of_cons, elem_of_app, Hst, !elem_of_cons.
      intros [H|[(C' & HC' & _)|[H|[H|H]]]]; try discriminate.
      * congruence.
      * apply elem_of_nil in H. contradiction.
    + apply list.NoDup_cons. split; [|exact Hnd].
      rewrite elem_of_app, Hco, !elem_of_cons.
      intros [(C' & HC')|[H|[H|H]]]; try discriminate.
      * congruence.
      * apply elem_of_nil in H. contradiction.
  - intros id'. rewrite !elem_of_cons, Hco. split.
    + intros [H|[[= ->]|(C' & HC')]]; [discriminate|eauto|].
      destruct (Z.eq_dec id' id) as [->|Hne]; [congruence|].
      rewrite slot_finished_ne in HC' by lia. eauto.
    + intros (C' & HC').
      destruct (Z.eq_dec id' id) as [->|Hne]; [auto|].
      right. right. exists C'. rewrite slot_finished_ne by lia. exact HC'.
  - intros id' blk. rewrite !elem_of_cons, Hst. split.
    + intros [[= -> ->]|[H|(C' & HC' & ->)]]; [eauto|discriminate|].
      destruct (Z.eq_dec id' id) as [->|Hne]; [congruence|].
      rewrite slot_finished_ne in HC' by lia. eauto.
    + intros (C' & HC' & ->).
      destruct (Z.eq_dec id' id) as [->|Hne].
      * left. congruence.
      * right. right. exists C'.
        rewrite slot_finished_ne by lia. auto.
Qed.

Lemma mainfunc_then_close_frees_once_witness :
  mainfunc_frees 0 demo_running
  = [free_stack 0 ["c"; x00; x00; x00; "b"; "a"]%byte; free_coroutine 0] /\
  exists S' rs,
    mainfunc_return 0 demo_running = Returned tt S' /\
    coroutine_close S' = Some (rs ++ [free_table; free_schedule]) /\
    NoDup (mainfunc_frees 0 demo_running
           ++ rs ++ [free_table; free_schedule]) /\
    free_stack 1 [] ∈ mainfunc_frees 0 demo_running ++ rs.
Proof.
  split; [vm_compute; reflexivity|].
  destruct (mainfunc_then_close_frees_once demo_running)
    as (S' & rs & Hret & Hclose & Hnd & _ & Hblk).
  - exact demo_running_reachable.
  - vm_compute. discriminate.
  - exists S', rs. split; [exact Hret|]. split; [exact Hclose|].
    split; [exact Hnd|].
    apply (Hblk 1 []). exists (_co_new 200 8).
    split; vm_compute; reflexivity.
Defined.

(** ** Register, yield and resume at their edges *)

(** On every scheduler an execution reaches whose table is not full,
    or is full with a capacity that can be doubled within [int],
    register returns: the [assert(0)] after its loop is not reached.
    The id it returns is in range, the count goes up by one, the
    capacity stays when the table was not full and doubles, to an [int],
    when it was, and the running id does not change. *)
Theorem coroutine_new_returns func ud S :
  reachable S ->
  schedule.nco S < schedule.cap S \/ schedule.cap S * 2 <= INT_MAX ->
  exists id S',
    coroutine_new func ud S = Returned id S' /\
    0 <= id < schedule.cap S' /\
    schedule.nco S' = schedule.nco S + 1 /\
    ((schedule.nco S < schedule.cap S /\
      schedule.cap S' = schedule.cap S) \/
     (schedule.nco S = schedule.cap S /\
      schedule.cap S' = schedule.cap S * 2 /\
      schedule.cap S' <= INT_MAX)) /\
    schedule.running S' = schedule.running S.
Proof.
  intros Hreach Hint.
  pose proof (reachable_ok S Hreach) as (Htable & _).
  pose proof Htable as (Hlen & _ & Hnco).
  pose proof (live_le_length (schedule.co S)) as Hle.
  destruct (coroutine_new_ok func ud S Htable)
    as (id & S' & Hnew & _ & Hid & _).
  destruct (coroutine_new_shape _ _ _ _ _ Hnew) as (Hnco' & Hrun & Hcase).
  exists id, S'. split; [exact Hnew|]. split; [exact Hid|].
  split; [exact Hnco'|]. split; [|exact Hrun].
  destruct Hcase as [(Hfree & Hsame)|(Hfull & Hdouble)].
  - left. auto.
  - right. split; [lia|]. split; [exact Hdouble|lia].
Qed.

Lemma coroutine_new_returns_witness :
  exists id S',
    coroutine_new 300 9 demo_full = Returned id S' /\
    0 <= id < schedule.cap S' /\
    schedule.nco S' = schedule.nco demo_full + 1.
Proof.
  destruct (coroutine_new_returns 300 9 demo_full)
    as (id & S' & Hnew & Hid & Hnco & _).
  - apply (runs_reachable (replicate 16 (call_new 100 7)) zeros).
    vm_compute. reflexivity.
  - right. vm_compute. discriminate.
  - exists id, S'. split; [exact Hnew|]. split; [exact Hid|exact Hnco].
Defined.

(** A yield while no coroutine runs, or from a frame whose address is
    not above the start of the stack, or so far below the top that more
    than [STACK_SIZE] bytes would be saved, fails its assertion, with
    the scheduler as it was. *)
Theorem coroutine_yield_asserts addrC dummy S :
  running_ok S ->
  schedule.running S = -1 \/ addrC <= 0 \/ dummy < 0 ->
  coroutine_yield addrC dummy S = Aborted S.
Proof.
  intros Hok Hbad. unfold coroutine_yield.
  destruct Hok as [Hnone|(Hid & C & Hslot & _)].
  - rewrite Hnone. reflexivity.
  - destruct (Z.leb_spec 0 (schedule.running S)); [|lia]. simpl.
    rewrite Hslot.
    destruct (Z.ltb_spec 0 addrC) as [Ha|Ha]; simpl; [|reflexivity].
    unfold _save_stack.
    destruct (Z.leb_spec (STACK_SIZE - dummy) STACK_SIZE); simpl;
      [lia|reflexivity].
Qed.

Lemma coroutine_yield_asserts_witness :
  coroutine_yield 1048572 1048570 demo = Aborted demo /\
  coroutine_yield 0 1048570 demo_running = Aborted demo_running /\
  coroutine_yield 1048572 (-1) demo_running = Aborted demo_running.
Proof.
  pose proof (proj1 (proj2 demo_ok)) as Hdemo.
  pose proof (proj1 (proj2 demo_running_ok)) as Hrunning.
  split; [|split].
  - apply (coroutine_yield_asserts 1048572 1048570 demo Hdemo).
    left. vm_compute. reflexivity.
  - apply (coroutine_yield_asserts 0 1048570 demo_running Hrunning).
    right. left. lia.
  - apply (coroutine_yield_asserts 1048572 (-1) demo_running Hrunning).
    right. right. lia.
Defined.

(** On every scheduler an execution reaches no call reads or writes
    outside a block: resume and status never do, whatever their
    arguments; register does not on a table that is not full, where its
    loop reads the table; neither does a yield from a frame that is not
    above the top of the stack, nor [mainfunc] while a coroutine runs.
    In particular the [memcpy] of resume and of yield stay inside the
    stack and inside the private block. *)
Theorem calls_stay_in_bounds S :
  reachable S ->
  (forall func ud,
     schedule.nco S < schedule.cap S ->
     coroutine_new func ud S <> Undefined) /\
  (forall id, coroutine_resume id S <> Undefined) /\
  (forall id, coroutine_status id S <> Undefined) /\
  (forall addrC dummy,
     dummy <= STACK_SIZE -> coroutine_yield addrC dummy S <> Undefined) /\
  (0 <= schedule.running S ->
   mainfunc_call S <> Undefined /\
   mainfunc_return (schedule.running S) S <> Undefined).
Proof.
  intros Hreach.
  pose proof (reachable_ok S Hreach) as (Htable & Hrun & Hblocks).
  pose proof Htable as (Hlen & Hcap & _).
  split; [|split; [|split; [|split]]].
  - intros func ud Hfree.
    destruct (coroutine_new_ok func ud S Htable) as (id & S' & -> & _).
    discriminate.
  - intros id. unfold coroutine_resume.
    destruct (negb (schedule.running S =? -1)); [discriminate|].
    destruct (Z.leb_spec 0 id); simpl; [|discriminate].
    destruct (Z.ltb_spec id (schedule.cap S)); simpl; [|discriminate].
    destruct (slot S id) as [[C|]|] eqn:Hslot; [|discriminate|].
    + destruct (coroutine.status C =? COROUTINE_READY); [discriminate|].
      destruct (coroutine.status C =? COROUTINE_SUSPEND); [|discriminate].
      destruct (Hblocks _ _ Hslot) as (Hblen & Hsz & Hmax).
      destruct (Z.leb_spec 0 (coroutine.size C)); [|lia].
      destruct (Z.leb_spec (coroutine.size C) STACK_SIZE); [|lia].
      destruct (Z.leb_spec (coroutine.size C)
                  (Z.of_nat (length (coroutine.stack C)))); [|lia].
      discriminate.
    + destruct (slot_in_range S id) as [c Hc]; [lia|congruence].
  - intros id. unfold coroutine_status.
    destruct (Z.leb_spec 0 id); simpl; [|discriminate].
    destruct (Z.ltb_spec id (schedule.cap S)); simpl; [|discriminate].
    destruct (slot S id) as [[C|]|] eqn:Hslot; try discriminate.
    destruct (slot_in_range S id) as [c Hc]; [lia|congruence].
  - intros addrC dummy Hd.
    destruct (Z.lt_ge_cases (schedule.running S) 0) as [Hneg|Hpos].
    { unfold coroutine_yield.
      destruct (Z.leb_spec 0 (schedule.running S)); [lia|]. discriminate. }
    destruct Hrun as [Hnone|(Hid & C & Hslot & _)]; [lia|].
    destruct (Z.le_gt_cases addrC 0) as [Ha|Ha].
    { unfold coroutine_yield.
      destruct (Z.leb_spec 0 (schedule.running S)); [|lia]. simpl.
      rewrite Hslot. destruct (Z.ltb_spec 0 addrC); [lia|]. discriminate. }
    destruct (Z.lt_ge_cases dummy 0) as [Hd0|Hd0].
    { unfold coroutine_yield, _save_stack.
      destruct (Z.leb_spec 0 (schedule.running S)); [|lia]. simpl.
      rewrite Hslot. destruct (Z.ltb_spec 0 addrC); [|lia]. simpl.
      destruct (Z.leb_spec (STACK_SIZE - dummy) STACK_SIZE); [lia|].
      discriminate. }
    destruct (Hblocks _ _ Hslot) as (Hblen & _).
    rewrite (coroutine_yield_ok addrC dummy S C); try assumption;
      [discriminate|lia].
  - intros Hpos.
    destruct Hrun as [Hnone|(Hid & C & Hslot & _)]; [lia|].
    unfold mainfunc_call, mainfunc_return. rewrite Hslot.
    split; discriminate.
Qed.

Lemma calls_stay_in_bounds_witness :
  coroutine_resume 0 demo <> Undefined /\
  coroutine_status 99 demo <> Undefined /\
  coroutine_yield 1048572 1048576 demo_running <> Undefined.
Proof.
  destruct (calls_stay_in_bounds demo demo_reachable)
    as (_ & Hres & Hst & _).
  destruct (calls_stay_in_bounds demo_running demo_running_reachable)
    as (_ & _ & _ & Hy & _).
  split; [exact (Hres 0)|]. split; [exact (Hst 99)|].
  apply (Hy 1048572 1048576). reflexivity.
Defined.

(** ** What a call leaves alone *)

Lemma step_keeps S e S' id C C' :
  table_ok S -> step S e S' ->
  slot S id = Some (Some C) -> slot S' id = Some (Some C') ->
  coroutine.func C' = coroutine.func C /\
  coroutine.ud C' = coroutine.ud C /\
  coroutine.cap C <= coroutine.cap C'.
Proof.
  intros (Hlen & _) Hstep HC HC'.
  pose proof (slot_range _ _ _ HC) as Hid.
  assert (C' = C -> coroutine.func C' = coroutine.func C /\
                    coroutine.ud C' = coroutine.ud C /\
                    coroutine.cap C <= coroutine.cap C') as Hsame
    by (intros ->; repeat split; lia).
  destruct Hstep as [func ud Hfull|func ud id0 Hfree Hslot0|id0 _ _ _
    |id0 C0 Hnone Hid0 Hslot0 Hst0|id0 C0 Hnone Hid0 Hslot0 Hst0 Hsz Hl
    |addrC dummy C0 Hpos Ha Hd Hslot0|id0| |C0 Hslot0|off b Hpos Hoff];
    try (apply Hsame; congruence).
  - apply Hsame.
    rewrite (slot_grown_old _ S id (Some C)) in HC' by (lia || exact HC).
    congruence.
  - pose proof (slot_range _ _ _ Hslot0).
    assert (id <> id0) as Hne by (intros ->; congruence).
    rewrite slot_registered_ne in HC' by lia. apply Hsame. congruence.
  - destruct (Z.eq_dec id id0) as [->|Hne].
    + erewrite slot_resumed_ready_eq in HC' by exact Hslot0.
      injection HC' as <-. rewrite Hslot0 in HC. injection HC as <-.
      repeat split. simpl. lia.
    + rewrite slot_resumed_ready_ne in HC' by lia. apply Hsame. congruence.
  - destruct (Z.eq_dec id id0) as [->|Hne].
    + erewrite slot_resumed_suspended_eq in HC' by exact Hslot0.
      injection HC' as <-. rewrite Hslot0 in HC. injection HC as <-.
      repeat split. simpl. lia.
    + rewrite slot_resumed_suspended_ne in HC' by lia.
      apply Hsame. congruence.
  - destruct (Z.eq_dec id (schedule.running S)) as [->|Hne].
    + erewrite slot_yielded_eq in HC' by exact Hslot0.
      injection HC' as <-. rewrite Hslot0 in HC. injection HC as <-.
      simpl.
      destruct (Z.ltb_spec (coroutine.cap C0) (STACK_SIZE - dummy));
        simpl; repeat split; lia.
    + rewrite slot_yielded_ne in HC' by lia. apply Hsame. congruence.
  - pose proof (slot_range _ _ _ Hslot0).
    destruct (Z.eq_dec id (schedule.running S)) as [->|Hne].
    + erewrite slot_finished_eq in HC' by exact Hslot0. discriminate.
    + rewrite slot_finished_ne in HC' by lia. apply Hsame. congruence.
  - apply Hsame. change (slot S id = Some (Some C')) in HC'. congruence.
Qed.

(** No call changes the entry function or the user pointer of a
    coroutine that stays in its slot, and none makes its private block
    smaller: the capacity of the block only grows. *)
Theorem call_keeps_entry_and_capacity e S S' id C C' :
  reachable S -> exec e S = Some S' ->
  slot S id = Some (Some C) -> slot S' id = Some (Some C') ->
  coroutine.func C' = coroutine.func C /\
  coroutine.ud C' = coroutine.ud C /\
  coroutine.cap C <= coroutine.cap C'.
Proof.
  intros Hreach He. apply (step_keeps S e S').
  - apply (reachable_ok S Hreach).
  - apply exec_step. exact He.
Qed.

Lemma exec_default e S :
  is_Some (exec e S) -> exec e S = Some (default S (exec e S)).
Proof. intros [S' ->]. reflexivity. Qed.

Lemma call_keeps_entry_and_capacity_witness :
  exists S' C',
    exec (call_yield 1048572 1048573) demo_running = Some S' /\
    slot S' 0 = Some (Some C') /\
    coroutine.func C' = 100 /\ coroutine.ud C' = 7 /\
    6 <= coroutine.cap C'.
Proof.
  set (S' := default demo_running
               (exec (call_yield 1048572 1048573) demo_running)).
  set (C' := coroutine.mk 100 7 ctx_in_yield 6 3 COROUTINE_SUSPEND
               [x00; "b"; "a"; x00; "b"; "a"]%byte).
  assert (exec (call_yield 1048572 1048573) demo_running = Some S') as He.
  { apply exec_default.
    apply (proj1 (bool_decide_spec _)). vm_compute. reflexivity. }
  assert (slot S' 0 = Some (Some C')) as HC' by (vm_compute; reflexivity).
  exists S', C'. split; [exact He|]. split; [exact HC'|].
  apply (call_keeps_entry_and_capacity (call_yield 1048572 1048573)
           demo_running S' 0 (set_status COROUTINE_RUNNING demo_co) C').
  - exact demo_running_reachable.
  - exact He.
  - vm_compute. reflexivity.
  - exact HC'.
Defined.

(** A coroutine that is not running is out of reach of every call but
    its own resume. *)
Lemma parked_kept id C S e S' :
  coroutine.status C <> COROUTINE_RUNNING ->
  slot S id = Some (Some C) -> id < schedule.cap S ->
  running_ok S -> step S e S' -> e <> call_resume id ->
  slot S' id = Some (Some C) /\ id < schedule.cap S'.
Proof.
  intros Hpark Hslot Hcap Hok Hstep Hne.
  pose proof (slot_range _ _ _ Hslot) as Hid.
  assert (0 <= schedule.running S -> schedule.running S <> id) as Hrun.
  { intros Hpos Heq.
    destruct Hok as [Hnone|(_ & Cr & HCr & Hst)]; [lia|].
    rewrite Heq, Hslot in HCr. injection HCr as <-. contradiction. }
  destruct Hstep as [func ud Hfull|func ud id0 Hfree Hslot0|id0 _ _ _
    |id0 C0 Hnone Hid0 Hslot0 Hst0|id0 C0 Hnone Hid0 Hslot0 Hst0 Hsz Hlen
    |addrC dummy C0 Hpos Ha Hd Hslot0|id0| |C0 Hslot0|off b Hpos Hoff];
    try (split; assumption).
  - split; [apply slot_grown_old; assumption|simpl; lia].
  - pose proof (slot_range _ _ _ Hslot0).
    split; [|exact Hcap].
    rewrite slot_registered_ne; [exact Hslot|lia|congruence].
  - split; [|exact Hcap].
    rewrite slot_resumed_ready_ne; [exact Hslot|lia|congruence].
  - split; [|exact Hcap].
    rewrite slot_resumed_suspended_ne; [exact Hslot|lia|congruence].
  - split; [|exact Hcap].
    rewrite slot_yielded_ne; [exact Hslot|lia|].
    intros Heq. apply (Hrun Hpos). congruence.
  - pose proof (slot_range _ _ _ Hslot0).
    split; [|exact Hcap].
    rewrite slot_finished_ne; [exact Hslot|lia|].
    intros Heq. apply Hrun; [lia|congruence].
Qed.

Lemma parked_kept_execs id C es S S' :
  coroutine.status C <> COROUTINE_RUNNING ->
  slot S id = Some (Some C) -> id < schedule.cap S ->
  running_ok S -> execs es S = Some S' ->
  Forall (fun e => e <> call_resume id) es ->
  slot S' id = Some (Some C) /\ id < schedule.cap S'.
Proof.
  intros Hpark. revert S.
  induction es as [|e es IH]; intros S Hslot Hcap Hok Hex Hes; simpl in Hex.
  - injection Hex as <-. auto.
  - destruct (exec e S) as [S1|] eqn:He; [|discriminate].
    apply exec_step in He. inversion Hes as [|? ? Hne Hes']; subst.
    destruct (parked_kept id C S e S1) as [Hslot1 Hcap1]; try assumption.
    apply (IH S1); try assumption.
    eapply running_ok_step; eassumption.
Qed.

(** A coroutine that is Ready or Suspended stays exactly as it is,
    entry function, user pointer, context, state, saved size and saved
    bytes, through every execution that does not resume it: what other
    coroutines do, and what the main context registers, cannot reach
    it. *)
Theorem parked_coroutine_untouched id C es S S' :
  reachable S ->
  slot S id = Some (Some C) ->
  coroutine.status C <> COROUTINE_RUNNING ->
  execs es S = Some S' ->
  Forall (fun e => e <> call_resume id) es ->
  slot S' id = Some (Some C).
Proof.
  intros Hreach Hslot Hpark Hex Hes.
  pose proof (reachable_ok S Hreach) as ((Hlen & _) & Hrun & _).
  pose proof (slot_range _ _ _ Hslot) as Hid.
  apply (parked_kept_execs id C es S S'); try assumption. lia.
Qed.

Lemma parked_coroutine_untouched_witness :
  slot demo_away 0 = Some (Some demo_co).
Proof.
  apply (parked_coroutine_untouched 0 demo_co demo_between demo demo_away).
  - exact demo_reachable.
  - exact demo_slot.
  - vm_compute. discriminate.
  - apply (runs_execs demo_between demo). vm_compute. reflexivity.
  - unfold demo_between.
    repeat (constructor; [intros H; discriminate H|]). constructor.
Defined.

(** ** How the calls compose *)

(** A yield followed at once by the resume of the same coroutine leaves
    the scheduler where it was: every byte of the stack, the running id,
    the count, the capacity and every other slot are as before the
    yield, and the coroutine reads Running again. *)
Theorem yield_then_resume_restores addrC dummy S :
  reachable S ->
  0 <= schedule.running S -> 0 < addrC -> 0 <= dummy <= STACK_SIZE ->
  exists S1 S2,
    coroutine_yield addrC dummy S = Switched to_main S1 /\
    coroutine_resume (schedule.running S) S1
    = Switched (to_coroutine ctx_in_yield) S2 /\
    (forall k, schedule.stack S2 k = schedule.stack S k) /\
    schedule.running S2 = schedule.running S /\
    schedule.nco S2 = schedule.nco S /\
    schedule.cap S2 = schedule.cap S /\
    (forall id, id <> schedule.running S -> slot S2 id = slot S id) /\
    coroutine_status (schedule.running S) S2
    = Returned COROUTINE_RUNNING S2.
Proof.
  intros Hreach Hpos Ha Hd.
  pose proof (reachable_ok S Hreach) as (_ & Hrun & Hblocks).
  destruct Hrun as [Hnone|(Hid & C & Hslot & _)]; [lia|].
  destruct (Hblocks _ _ Hslot) as (Hblen & _).
  set (id := schedule.running S) in *.
  set (n := STACK_SIZE - dummy).
  set (C1 := set_ctx ctx_in_yield
               (set_status COROUTINE_SUSPEND
                  (saved (schedule.stack S) dummy C))).
  set (S1 := yielded id dummy C S).
  assert (slot S1 id = Some (Some C1)) as Hslot1
    by (eapply slot_yielded_eq; exact Hslot).
  pose proof (length_stack_bytes (schedule.stack S) dummy n) as Hlen.
  assert (coroutine.stack C1
          = block_write
              (coroutine.stack
                 (if coroutine.cap C <? n then regrow n C else C))
              (stack_bytes (schedule.stack S) dummy n)) as Hstack
    by reflexivity.
  exists S1, (resumed_suspended id C1 S1).
  split; [apply coroutine_yield_ok; assumption|]. split.
  { apply (coroutine_resume_suspended id S1 C1); try assumption.
    - reflexivity.
    - reflexivity.
    - change (coroutine.size C1) with n. unfold n. lia.
    - change (coroutine.size C1) with n. rewrite Hstack.
      unfold block_write. rewrite length_app, Hlen. unfold n. lia. }
  split.
  { intros k. simpl. fold n.
    destruct (Z.lt_ge_cases k (STACK_SIZE - n)) as [Hlow|Hlow].
    { apply stack_write_outside. lia. }
    destruct (Z.lt_ge_cases k STACK_SIZE) as [Hhigh|Hhigh].
    - rewrite stack_write_inside by lia.
      rewrite nth_block_write by (unfold n in *; lia).
      f_equal. unfold n. lia.
    - apply stack_write_outside. lia. }
  split; [reflexivity|]. split; [reflexivity|]. split; [reflexivity|].
  split.
  { intros id' Hne. rewrite slot_resumed_suspended_ne by lia.
    apply slot_yielded_ne; [lia|exact Hne]. }
  apply (coroutine_status_slot id (resumed_suspended id C1 S1)
           (set_status COROUTINE_RUNNING C1)).
  - exact Hid.
  - eapply slot_resumed_suspended_eq. exact Hslot1.
Qed.

Lemma yield_then_resume_restores_witness :
  exists S1 S2,
    coroutine_yield 1048572 1048573 demo_running = Switched to_main S1 /\
    coroutine_resume 0 S1 = Switched (to_coroutine ctx_in_yield) S2 /\
    (forall k, schedule.stack S2 k = schedule.stack demo_running k).
Proof.
  destruct (yield_then_resume_restores 1048572 1048573 demo_running)
    as (S1 & S2 & Hy & Hr & Hstack & _).
  - exact demo_running_reachable.
  - vm_compute. discriminate.
  - reflexivity.
  - between.
  - exists S1, S2. split; [exact Hy|]. split; [exact Hr|exact Hstack].
Defined.



Lemma live_full co i x :
  live co = length co -> co !! i = Some x -> exists C, x = Some C.
Proof.
  revert i. induction co as [|c co IH]; intros i Hfull Hi; [discriminate|].
  pose proof (live_cons c co) as Hc. pose proof (live_le_length co) as Hle.
  simpl length in Hfull.
  destruct i as [|i]; simpl in Hi.
  - injection Hi as <-. destruct c as [C|]; [eauto|].
    simpl in Hc. lia.
  - apply (IH i); [|exact Hi]. destruct c; simpl in Hc; lia.
Qed.

(** When the table is full and the running coroutine's entry function
    returns, the next register does not grow the table: it returns the
    id of the coroutine that has just finished. *)
Theorem finished_id_is_reused func ud S :
  reachable S ->
  schedule.nco S = schedule.cap S -> 0 <= schedule.running S ->
  exists S1 S2,
    mainfunc_return (schedule.running S) S = Returned tt S1 /\
    coroutine_new func ud S1 = Returned (schedule.running S) S2 /\
    schedule.cap S2 = schedule.cap S.
Proof.
  intros Hreach Hfull Hpos.
  pose proof (reachable_ok S Hreach) as (Htable & Hrun & _).
  pose proof Htable as (Hlen & Hcap & Hnco).
  destruct Hrun as [Hnone|(Hid & C & Hslot & _)]; [lia|].
  set (id := schedule.running S) in *.
  assert (step S entry_returns (finished id S)) as Hstep
    by (apply (step_return S C); exact Hslot).
  pose proof (table_ok_step _ _ _ Htable Hstep) as Htable1.
  destruct (coroutine_new_ok func ud (finished id S) Htable1)
    as (id' & S2 & Hnew & _).
  assert (after (coroutine_new func ud (finished id S)) = Some S2)
    as Hafter by (rewrite Hnew; reflexivity).
  apply coroutine_new_after in Hafter as (id0 & Hnew0 & Hcase).
  rewrite Hnew in Hnew0. injection Hnew0 as <-.
  destruct Hcase as [(Hge & _)|(_ & Hempty & ->)].
  { simpl in Hge. lia. }
  assert (id' = id) as ->.
  { destruct (Z.eq_dec id' id) as [Heq|Hne]; [exact Heq|].
    rewrite slot_finished_ne in Hempty by lia.
    apply slot_lookup in Hempty as [_ Hempty].
    destruct (live_full (schedule.co S) _ _ ltac:(lia) Hempty) as [C' HC'].
    discriminate. }
  exists (finished id S), (registered id (_co_new func ud) (finished id S)).
  split; [unfold mainfunc_return; rewrite Hslot; reflexivity|].
  split; [exact Hnew|reflexivity].
Qed.

Lemma finished_id_is_reused_witness :
  exists S1 S2,
    mainfunc_return 5 demo_full_running = Returned tt S1 /\
    coroutine_new 300 9 S1 = Returned 5 S2 /\
    schedule.cap S2 = 16.
Proof.
  destruct (finished_id_is_reused 300 9 demo_full_running)
    as (S1 & S2 & Hret & Hnew & Hcap).
  - apply (runs_reachable
             (replicate 16 (call_new 100 7) ++ [call_resume 5]) zeros).
    vm_compute. reflexivity.
  - vm_compute. reflexivity.
  - vm_compute. discriminate.
  - exists S1, S2. split; [exact Hret|]. split; [exact Hnew|exact Hcap].
Defined.

(** Register on a table whose coroutines fill the slots below [nco]:
    the id is [nco], and the table stays so filled. *)
Lemma coroutine_new_dense func ud S :
  table_ok S -> dense S ->
  exists S',
    coroutine_new func ud S = Returned (schedule.nco S) S' /\
    table_ok S' /\ dense S' /\
    schedule.nco S' = schedule.nco S + 1.
Proof.
  intros Htable Hdense. pose proof Htable as (Hlen & Hcap & Hnco).
  pose proof (live_le_length (schedule.co S)) as Hle.
  destruct (Z.le_gt_cases (schedule.cap S) (schedule.nco S))
    as [Hfull|Hfree].
  - assert (schedule.nco S = schedule.cap S) as Heq by lia.
    exists (grown (_co_new func ud) S).
    assert (coroutine_new func ud S
            = Returned (schedule.cap S) (grown (_co_new func ud) S))
      as Hnew.
    { unfold coroutine_new.
      destruct (Z.leb_spec (schedule.cap S) (schedule.nco S)); [|lia].
      reflexivity. }
    split; [rewrite Hnew; f_equal; lia|]. split.
    { eapply table_ok_step; [exact Htable|]. apply step_grow. exact Hfull. }
    split; [|reflexivity].
    intros id Hid. simpl in Hid. simpl schedule.nco. split.
    + intros Hlt. destruct (Z.eq_dec id (schedule.cap S)) as [->|Hne].
      * rewrite slot_grown_first by assumption. eauto.
      * destruct (Hdense id) as [[C HC] _]; [lia|lia|].
        exists C. apply slot_grown_old; [lia|exact HC].
    + intros Hge. apply slot_grown_rest; [exact Hlen|lia].
  - assert (Z.rem (0 + schedule.nco S) (schedule.cap S) = schedule.nco S)
      as Hrem.
    { rewrite Z.add_0_l. apply Z.rem_small. lia. }
    destruct (Hdense (schedule.nco S)) as [_ Hempty]; [lia|].
    specialize (Hempty (Z.le_refl _)).
    pose proof (coroutine_new_scan_finds (Z.to_nat (schedule.cap S)) 0
                  (_co_new func ud) S 0) as Hscan.
    rewrite Hrem in Hscan.
    exists (registered (schedule.nco S) (_co_new func ud) S).
    assert (coroutine_new func ud S
            = Returned (schedule.nco S)
                (registered (schedule.nco S) (_co_new func ud) S)) as Hnew.
    { unfold coroutine_new.
      destruct (Z.leb_spec (schedule.cap S) (schedule.nco S)); [lia|].
      apply Hscan; [lia|exact Hempty|]. intros k Hk. lia. }
    split; [exact Hnew|]. split.
    { eapply table_ok_step; [exact Htable|].
      apply step_register; assumption. }
    split; [|reflexivity].
    intros id Hid. simpl in Hid. simpl schedule.nco. split.
    + intros Hlt. destruct (Z.eq_dec id (schedule.nco S)) as [->|Hne].
      * rewrite slot_registered_eq by exact Hempty. eauto.
      * rewrite slot_registered_ne by lia.
        apply (Hdense id); lia.
    + intros Hge. rewrite slot_registered_ne by lia.
      apply (Hdense id); lia.
Qed.

Lemma packed_open garbage : packed (coroutine_open garbage).
Proof.
  split; [apply (sched_ok_open garbage)|]. split; [|split].
  - intros id Hid. split; [simpl; lia|]. intros _.
    destruct (slot_open garbage id) as [H|H]; [exact H|].
    destruct (slot_in_range (coroutine_open garbage) id) as [c Hc];
      [exact Hid|congruence].
  - exists 0%nat. reflexivity.
  - left. reflexivity.
Qed.

(** Register on a table that only registrations have touched: the id is
    [nco], and the table is still such a table. *)
Lemma coroutine_new_packed func ud S :
  packed S ->
  exists S',
    coroutine_new func ud S = Returned (schedule.nco S) S' /\
    exec (call_new func ud) S = Some S' /\
    packed S' /\
    schedule.nco S' = schedule.nco S + 1.
Proof.
  intros (Htable & Hdense & Hcap & Hsnug).
  destruct (coroutine_new_dense func ud S Htable Hdense)
    as (S' & Hnew & Htable' & Hdense' & Hnco').
  exists S'. split; [exact Hnew|].
  assert (exec (call_new func ud) S = Some S') as He
    by (simpl; rewrite Hnew; reflexivity).
  split; [exact He|]. split; [|exact Hnco'].
  split; [exact Htable'|]. split; [exact Hdense'|]. split.
  - eapply cap_ok_step; [exact Hcap|]. apply exec_step. exact He.
  - destruct (coroutine_new_shape _ _ _ _ _ Hnew)
      as (_ & _ & [(Hfree & Hsame)|(Hfull & Hdouble)]).
    + destruct Hsnug as [H16|Hlt]; [left; congruence|right; lia].
    + right. lia.
Qed.

(** Such a table of at most 2^30 coroutines has at most 2^30 slots: no
    doubling on the way to it left the range of [int]. *)
Lemma packed_cap S :
  packed S -> schedule.nco S <= 2 ^ 30 -> schedule.cap S <= 2 ^ 30.
Proof.
  intros (_ & _ & [k Hk] & Hsnug) Hnco.
  destruct Hsnug as [H16|Hlt].
  - rewrite H16. unfold DEFAULT_COROUTINE. lia.
  - assert (schedule.cap S = 2 ^ (4 + Z.of_nat k)) as Hpow.
    { rewrite Hk, Z.pow_add_r by lia. reflexivity. }
    assert (2 ^ (4 + Z.of_nat k) < 2 ^ 31) as Hlt31.
    { rewrite <- Hpow. replace (2 ^ 31) with (2 * 2 ^ 30) by reflexivity.
      lia. }
    apply Z.pow_lt_mono_r_iff in Hlt31; [|lia|lia].
    rewrite Hpow. apply Z.pow_le_mono_r; lia.
Qed.


Lemma register_all_packed fs :
  forall S, packed S ->
  exists S',
    register_all fs S
    = Returned (seqZ (schedule.nco S) (Z.of_nat (length fs))) S' /\
    packed S' /\
    schedule.nco S' = schedule.nco S + Z.of_nat (length fs).
Proof.
  induction fs as [|[func ud] fs IH]; intros S Hpacked.
  - exists S. split; [reflexivity|]. split; [exact Hpacked|]. simpl. lia.
  - destruct (coroutine_new_packed func ud S Hpacked)
      as (S1 & Hnew & _ & Hpacked1 & Hnco1).
    destruct (IH S1 Hpacked1) as (S2 & Hall & Hpacked2 & Hnco2).
    exists S2. simpl register_all. rewrite Hnew, Hall. split; [|split].
    + rewrite (seqZ_cons (schedule.nco S)) by (simpl length; lia).
      rewrite Hnco1. do 3 f_equal; simpl length; lia.
    + exact Hpacked2.
    + rewrite Hnco2, Hnco1. simpl length. lia.
Qed.

(** On a scheduler just opened, up to 2^30 registrations in a row
    return the ids 0, 1, 2, ... in this order, through every doubling of
    the table; the capacity ends at most 2^30, so that none of these
    doublings left the range of [int]. *)
Theorem register_all_ids_in_order garbage fs :
  Z.of_nat (length fs) <= 2 ^ 30 ->
  exists S',
    register_all fs (coroutine_open garbage)
    = Returned (seqZ 0 (Z.of_nat (length fs))) S' /\
    schedule.nco S' = Z.of_nat (length fs) /\
    schedule.cap S' <= 2 ^ 30.
Proof.
  intros Hlen.
  destruct (register_all_packed fs (coroutine_open garbage)
              (packed_open garbage)) as (S' & Hall & Hpacked & Hnco).
  simpl in Hnco. exists S'. split; [exact Hall|]. split; [exact Hnco|].
  apply (packed_cap S' Hpacked). lia.
Qed.

Lemma register_all_ids_in_order_witness :
  exists S',
    register_all (replicate 17 (100, 7)) (coroutine_open zeros)
    = Returned [0; 1; 2; 3; 4; 5; 6; 7; 8; 9; 10; 11; 12; 13; 14; 15; 16]
        S' /\
    schedule.nco S' = 17.
Proof.
  destruct (register_all_ids_in_order zeros (replicate 17 (100, 7)))
    as (S' & Hall & Hnco & _).
  - vm_compute. discriminate.
  - exists S'. split; [exact Hall|exact Hnco].
Defined.



(** ** Ids stay valid *)

Lemma cap_step S e S' :
  0 <= schedule.cap S -> step S e S' -> schedule.cap S <= schedule.cap S'.
Proof. intros Hcap Hstep. destruct Hstep; simpl; lia. Qed.

Lemma cap_execs es S S' :
  0 <= schedule.cap S -> execs es S = Some S' ->
  schedule.cap S <= schedule.cap S'.
Proof.
  revert S. induction es as [|e es IH]; intros S Hcap; simpl.
  - intros [= <-]. lia.
  - destruct (exec e S) as [S1|] eqn:He; [|discriminate].
    intros Hex. apply exec_step in He.
    pose proof (cap_step _ _ _ Hcap He).
    pose proof (IH S1 ltac:(lia) Hex). lia.
Qed.

(** The capacity never shrinks, so an id that is in range stays in
    range through every execution, and [coroutine_status] of it never
    fails its assertion later: it returns. *)
Theorem id_stays_in_range id es S S' :
  reachable S -> 0 <= id < schedule.cap S ->
  execs es S = Some S' ->
  schedule.cap S <= schedule.cap S' /\
  exists v, coroutine_status id S' = Returned v S'.
Proof.
  intros Hreach Hid Hex.
  pose proof (reachable_ok S Hreach) as Hok.
  pose proof (sched_ok_execs es S S' Hok Hex) as ((Hlen' & _) & _).
  pose proof (cap_execs es S S' ltac:(lia) Hex) as Hcap.
  split; [exact Hcap|].
  destruct (slot_in_range S' id) as [[C|] Hslot]; [lia| |].
  - exists (coroutine.status C). apply coroutine_status_slot; [lia|exact Hslot].
  - exists COROUTINE_DEAD. apply coroutine_status_empty; [lia|exact Hslot].
Qed.

Lemma id_stays_in_range_witness :
  schedule.cap demo <= schedule.cap demo_away /\
  exists v, coroutine_status 1 demo_away = Returned v demo_away.
Proof.
  apply (id_stays_in_range 1 demo_between demo demo_away).
  - exact demo_reachable.
  - between.
  - apply (runs_execs demo_between demo). vm_compute. reflexivity.
Defined.

(** ** Counting *)

Lemma nco_step S e S' :
  step S e S' -> schedule.nco S' = schedule.nco S + nco_change e.
Proof. intros Hstep. destruct Hstep; simpl; lia. Qed.

(** Through any execution the count of coroutines moves by the number
    of registrations minus the number of entry functions that returned;
    no other call changes it. *)
Theorem nco_counts_registrations es S S' :
  execs es S = Some S' ->
  schedule.nco S' = schedule.nco S + nco_changes es.
Proof.
  revert S. induction es as [|e es IH]; intros S; simpl.
  - intros [= <-]. lia.
  - destruct (exec e S) as [S1|] eqn:He; [|discriminate].
    intros Hex. apply exec_step, nco_step in He.
    rewrite (IH S1 Hex), He. lia.
Qed.

Lemma nco_counts_registrations_witness :
  schedule.nco demo_away = schedule.nco demo + nco_changes demo_between /\
  nco_changes demo_between = 0.
Proof.
  split; [|reflexivity].
  apply (nco_counts_registrations demo_between demo demo_away).
  apply (runs_execs demo_between demo). vm_compute. reflexivity.
Defined.

